(** * A singly linked list with head, tail and cached size

    Shallow embedding of [src/1list.py] (class [SinglyLinkedList]) and the
    verification of its specification.

    Python objects are mutable and shared: [self.tail] is an alias of the
    last node reachable from [self.head].  The embedding therefore keeps an
    explicit object store (a finite map from object identities to [Node]
    records) next to the three attributes of the list object, and every
    method is a computation in a state-and-exception monad over that store.
    An exception leaves the store exactly as it was when it was raised. *)

From stdpp Require Import gmap list.

Set Warnings "-clear-no-such-hyp".

Module SLL.

Local Open Scope Z_scope.

(** Object identities of [Node] instances. *)
Abbreviation loc := positive.

(** The exceptions the methods can raise. *)
Inductive exn : Set :=
  | IndexError
  | ValueError
  | AssertionError
  | AttributeError.

(** Result of running a method: a value, an exception, a [while] loop that
    never leaves ([Diverge]), or a reference to no object ([Dangling], which
    Python cannot produce). *)
Inductive outcome (A : Type) : Type :=
  | Return (a : A)
  | Raise (e : exn)
  | Diverge
  | Dangling.
Arguments Return {A} a.
Arguments Raise {A} e.
Arguments Diverge {A}.
Arguments Dangling {A}.

Section Embedding.
Context {V : Type} {eq_V : EqDecision V} {countable_V : Countable V}.

(** [@dataclass class Node: value; next] *)
Record Node : Type := mkNode { value : V; next : option loc }.

(** The object store together with the attributes of [self]. *)
Record state : Type := mkState {
  heap : gmap loc Node;
  head : option loc;
  tail : option loc;
  _size : Z
}.

Definition M (A : Type) : Type := state -> outcome A * state.

Definition ret {A} (a : A) : M A := fun st => (Return a, st).
Definition raise {A} (e : exn) : M A := fun st => (Raise e, st).
Definition diverge {A} : M A := fun st => (Diverge, st).

Definition bind {A B} (m : M A) (k : A -> M B) : M B :=
  fun st =>
    match m st with
    | (Return a, st') => k a st'
    | (Raise e, st') => (Raise e, st')
    | (Diverge, st') => (Diverge, st')
    | (Dangling, st') => (Dangling, st')
    end.

Notation "x <- m ;; k" := (bind m (fun x => k))
  (at level 100, m at next level, right associativity).
Notation "m >> k" := (bind m (fun _ => k))
  (at level 100, right associativity).

(** ** Attribute access *)

Definition get_head : M (option loc) := fun st => (Return (head st), st).
Definition get_tail : M (option loc) := fun st => (Return (tail st), st).
Definition get_size : M Z := fun st => (Return (_size st), st).

Definition set_head (p : option loc) : M unit :=
  fun st => (Return tt, mkState (heap st) p (tail st) (_size st)).
Definition set_tail (p : option loc) : M unit :=
  fun st => (Return tt, mkState (heap st) (head st) p (_size st)).
Definition set_size (n : Z) : M unit :=
  fun st => (Return tt, mkState (heap st) (head st) (tail st) n).

(** [Node(value=v, next=nx)]: a new object, distinct from every other. *)
Definition new_Node (v : V) (nx : option loc) : M (option loc) :=
  fun st =>
    let l := fresh (dom (heap st)) in
    (Return (Some l),
     mkState (<[l := mkNode v nx]> (heap st)) (head st) (tail st) (_size st)).

Definition load (p : option loc) : M Node :=
  fun st =>
    match p with
    | None => (Raise AttributeError, st)
    | Some l =>
        match heap st !! l with
        | Some n => (Return n, st)
        | None => (Dangling, st)
        end
    end.

Definition store (p : option loc) (f : Node -> Node) : M unit :=
  fun st =>
    match p with
    | None => (Raise AttributeError, st)
    | Some l =>
        match heap st !! l with
        | Some n =>
            (Return tt,
             mkState (<[l := f n]> (heap st)) (head st) (tail st) (_size st))
        | None => (Dangling, st)
        end
    end.

(** [p.value], [p.next], [p.value = v], [p.next = q] *)
Definition attr_value (p : option loc) : M V := n <- load p;; ret (value n).
Definition attr_next (p : option loc) : M (option loc) :=
  n <- load p;; ret (next n).
Definition set_value (p : option loc) (v : V) : M unit :=
  store p (fun n => mkNode v (next n)).
Definition set_next (p : option loc) (q : option loc) : M unit :=
  store p (fun n => mkNode (value n) q).

(** [assert p is not None] *)
Definition assert_not_None (p : option loc) : M unit :=
  match p with
  | Some _ => ret tt
  | None => raise AssertionError
  end.

(** Bound on the iterations of a [while] loop that walks the chain: a walk
    that has not met [None] after visiting more nodes than the store holds
    is inside a cycle and never ends. *)
Definition fuel : M nat := fun st => (Return (S (size (heap st))), st).

(** ** Basic helpers *)

Definition __len__ : M Z := get_size.

Fixpoint iter_loop (k : nat) (cur : option loc) : M (list V) :=
  match k with
  | O => diverge
  | S k' =>
      match cur with
      | None => ret []
      | Some _ =>
          v <- attr_value cur;;
          cur' <- attr_next cur;;
          rest <- iter_loop k' cur';;
          ret (v :: rest)
      end
  end.

Definition to_list : M (list V) :=
  k <- fuel;;
  cur <- get_head;;
  iter_loop k cur.

Definition is_empty : M bool :=
  sz <- get_size;; ret (bool_decide (sz = 0)).

Definition clear : M unit :=
  set_head None >> set_tail None >> set_size 0.

(** ** Index validation *)

Definition _check_index (index : Z) (allow_end : bool) : M unit :=
  sz <- get_size;;
  let max_ok := if allow_end then sz else sz - 1 in
  if decide (index < 0 \/ index > max_ok) then raise IndexError else ret tt.

Fixpoint _node_at_loop (k : nat) (cur : option loc) : M (option loc) :=
  match k with
  | O => ret cur
  | S k' =>
      assert_not_None cur >>
      cur' <- attr_next cur;;
      _node_at_loop k' cur'
  end.

Definition _node_at (index : Z) : M (option loc) :=
  _check_index index false >>
  cur <- get_head;;
  cur <- _node_at_loop (Z.to_nat index) cur;;
  assert_not_None cur >>
  ret cur.

(** ** Insert operations *)

Definition prepend (v : V) : M unit :=
  h <- get_head;;
  n <- new_Node v h;;
  set_head n >>
  sz <- get_size;;
  (if decide (sz = 0) then set_tail n else ret tt) >>
  sz <- get_size;;
  set_size (sz + 1).

Definition append (v : V) : M unit :=
  n <- new_Node v None;;
  sz <- get_size;;
  (if decide (sz = 0) then
     set_head n >> set_tail n
   else
     t <- get_tail;;
     assert_not_None t >>
     set_next t n >>
     set_tail n) >>
  sz <- get_size;;
  set_size (sz + 1).

Fixpoint extend (iterable : list V) : M unit :=
  match iterable with
  | [] => ret tt
  | x :: rest => append x >> extend rest
  end.

Definition __init__ (iterable : option (list V)) : M unit :=
  set_head None >>
  set_tail None >>
  set_size 0 >>
  match iterable with
  | Some it => extend it
  | None => ret tt
  end.

Definition insert (index : Z) (v : V) : M unit :=
  _check_index index true >>
  if decide (index = 0) then prepend v
  else
    sz <- get_size;;
    if decide (index = sz) then append v
    else
      prev <- _node_at (index - 1);;
      nx <- attr_next prev;;
      n <- new_Node v nx;;
      set_next prev n >>
      sz <- get_size;;
      set_size (sz + 1).

(** ** Get / set *)

Definition get (index : Z) : M V :=
  n <- _node_at index;; attr_value n.

Definition set (index : Z) (v : V) : M unit :=
  n <- _node_at index;; set_value n v.

(** ** Search *)

Fixpoint index_of_loop (k : nat) (v : V) (cur : option loc) (i : Z) : M Z :=
  match k with
  | O => diverge
  | S k' =>
      match cur with
      | None => ret (-1)
      | Some _ =>
          cv <- attr_value cur;;
          if decide (cv = v) then ret i
          else
            cur' <- attr_next cur;;
            index_of_loop k' v cur' (i + 1)
      end
  end.

Definition index_of (v : V) : M Z :=
  k <- fuel;;
  cur <- get_head;;
  index_of_loop k v cur 0.

Definition __contains__ (v : V) : M bool :=
  i <- index_of v;; ret (bool_decide (i <> -1)).

Fixpoint find_loop (k : nat) (v : V) (cur : option loc) : M (option loc) :=
  match k with
  | O => diverge
  | S k' =>
      match cur with
      | None => ret None
      | Some _ =>
          cv <- attr_value cur;;
          if decide (cv = v) then ret cur
          else
            cur' <- attr_next cur;;
            find_loop k' v cur'
      end
  end.

Definition find (v : V) : M (option loc) :=
  k <- fuel;;
  cur <- get_head;;
  find_loop k v cur.

(** ** Delete / pop operations *)

Definition pop_left : M V :=
  sz <- get_size;;
  if decide (sz = 0) then raise IndexError
  else
    h <- get_head;;
    assert_not_None h >>
    v <- attr_value h;;
    nx <- attr_next h;;
    set_head nx >>
    sz <- get_size;;
    set_size (sz - 1) >>
    sz <- get_size;;
    (if decide (sz = 0) then set_tail None else ret tt) >>
    ret v.

Definition pop : M V :=
  sz <- get_size;;
  if decide (sz = 0) then raise IndexError
  else if decide (sz = 1) then pop_left
  else
    prev <- _node_at (sz - 2);;
    t <- get_tail;;
    assert_not_None t >>
    v <- attr_value t;;
    set_next prev None >>
    set_tail prev >>
    sz <- get_size;;
    set_size (sz - 1) >>
    ret v.

Definition remove_at (index : Z) : M V :=
  _check_index index false >>
  if decide (index = 0) then pop_left
  else
    prev <- _node_at (index - 1);;
    target <- attr_next prev;;
    assert_not_None target >>
    v <- attr_value target;;
    nx <- attr_next target;;
    set_next prev nx >>
    sz <- get_size;;
    set_size (sz - 1) >>
    sz <- get_size;;
    (if decide (index = sz) then set_tail prev else ret tt) >>
    ret v.

Fixpoint remove_loop (k : nat) (v : V) (prev cur : option loc) : M bool :=
  match k with
  | O => diverge
  | S k' =>
      match cur with
      | None => ret false
      | Some _ =>
          cv <- attr_value cur;;
          if decide (cv = v) then
            nx <- attr_next cur;;
            set_next prev nx >>
            sz <- get_size;;
            set_size (sz - 1) >>
            t <- get_tail;;
            (if decide (cur = t) then set_tail prev else ret tt) >>
            ret true
          else
            nx <- attr_next cur;;
            remove_loop k' v cur nx
      end
  end.

Definition remove (v : V) : M bool :=
  sz <- get_size;;
  if decide (sz = 0) then ret false
  else
    h <- get_head;;
    assert_not_None h >>
    hv <- attr_value h;;
    if decide (hv = v) then pop_left >> ret true
    else
      k <- fuel;;
      prev <- get_head;;
      cur <- attr_next prev;;
      remove_loop k v prev cur.

(** ** Reverse / helpers *)

Fixpoint reverse_loop (k : nat) (prev cur : option loc) : M (option loc) :=
  match k with
  | O => diverge
  | S k' =>
      match cur with
      | None => ret prev
      | Some _ =>
          nxt <- attr_next cur;;
          set_next cur prev >>
          reverse_loop k' cur nxt
      end
  end.

Definition reverse : M unit :=
  k <- fuel;;
  cur <- get_head;;
  h <- get_head;;
  set_tail h >>
  prev <- reverse_loop k None cur;;
  set_head prev.

(** The loop condition [fast is not None and fast.next is not None]. *)
Definition fast_can_advance (fast : option loc) : M bool :=
  match fast with
  | None => ret false
  | Some _ => nx <- attr_next fast;; ret (bool_decide (nx <> None))
  end.

Fixpoint middle_node_loop (k : nat) (slow fast : option loc)
  : M (option loc) :=
  match k with
  | O => diverge
  | S k' =>
      go <- fast_can_advance fast;;
      if go : bool then
        slow' <- attr_next slow;;
        f1 <- attr_next fast;;
        fast' <- attr_next f1;;
        middle_node_loop k' slow' fast'
      else ret slow
  end.

Definition middle_node : M (option loc) :=
  k <- fuel;;
  slow <- get_head;;
  fast <- get_head;;
  middle_node_loop k slow fast.

Fixpoint nth_lead_loop (k : nat) (lead : option loc) : M (option loc) :=
  match k with
  | O => ret lead
  | S k' =>
      assert_not_None lead >>
      lead' <- attr_next lead;;
      nth_lead_loop k' lead'
  end.

Fixpoint nth_follow_loop (k : nat) (lead follow : option loc)
  : M (option loc) :=
  match k with
  | O => diverge
  | S k' =>
      match lead with
      | None => ret follow
      | Some _ =>
          assert_not_None follow >>
          follow' <- attr_next follow;;
          lead' <- attr_next lead;;
          nth_follow_loop k' lead' follow'
      end
  end.

Definition nth_from_end (n : Z) : M V :=
  if decide (n <= 0) then raise ValueError
  else
    sz <- get_size;;
    if decide (n > sz) then raise IndexError
    else
      k <- fuel;;
      lead <- get_head;;
      follow <- get_head;;
      lead <- nth_lead_loop (Z.to_nat n) lead;;
      follow <- nth_follow_loop k lead follow;;
      assert_not_None follow >>
      attr_value follow.

(** ** Duplicate removal *)

Fixpoint remove_duplicates_loop (k : nat) (seen : gset V)
    (prev cur : option loc) : M unit :=
  match k with
  | O => diverge
  | S k' =>
      match cur with
      | None => ret tt
      | Some _ =>
          cv <- attr_value cur;;
          if decide (cv ∈ seen) then
            assert_not_None prev >>
            nx <- attr_next cur;;
            set_next prev nx >>
            sz <- get_size;;
            set_size (sz - 1) >>
            t <- get_tail;;
            (if decide (cur = t) then set_tail prev else ret tt) >>
            cur' <- attr_next prev;;
            remove_duplicates_loop k' seen prev cur'
          else
            nx <- attr_next cur;;
            remove_duplicates_loop k' ({[cv]} ∪ seen) cur nx
      end
  end.

Definition remove_duplicates : M unit :=
  k <- fuel;;
  cur <- get_head;;
  remove_duplicates_loop k ∅ None cur.

(** ** Cycle detection *)

Fixpoint has_cycle_loop (k : nat) (slow fast : option loc) : M bool :=
  match k with
  | O => diverge
  | S k' =>
      go <- fast_can_advance fast;;
      if go : bool then
        slow' <- attr_next slow;;
        f1 <- attr_next fast;;
        fast' <- attr_next f1;;
        if decide (slow' = fast') then ret true
        else has_cycle_loop k' slow' fast'
      else ret false
  end.

Definition has_cycle : M bool :=
  k <- fuel;;
  slow <- get_head;;
  fast <- get_head;;
  has_cycle_loop k slow fast.

(** [cycle_start]: the first loop, Floyd's search for a meeting point.
    [Some slow] when the loop leaves by [break], [None] when its [else]
    branch runs. *)
Fixpoint cycle_meet_loop (k : nat) (slow fast : option loc)
  : M (option (option loc)) :=
  match k with
  | O => diverge
  | S k' =>
      go <- fast_can_advance fast;;
      if go : bool then
        slow' <- attr_next slow;;
        f1 <- attr_next fast;;
        fast' <- attr_next f1;;
        if decide (slow' = fast') then ret (Some slow')
        else cycle_meet_loop k' slow' fast'
      else ret None
  end.

(** [cycle_start]: the second loop, both pointers one step at a time. *)
Fixpoint cycle_entry_loop (k : nat) (ptr1 ptr2 : option loc)
  : M (option loc) :=
  match k with
  | O => diverge
  | S k' =>
      if decide (ptr1 = ptr2) then ret ptr1
      else
        assert_not_None ptr1 >>
        assert_not_None ptr2 >>
        ptr1' <- attr_next ptr1;;
        ptr2' <- attr_next ptr2;;
        cycle_entry_loop k' ptr1' ptr2'
  end.

Definition cycle_start : M (option loc) :=
  k <- fuel;;
  slow <- get_head;;
  fast <- get_head;;
  met <- cycle_meet_loop k slow fast;;
  match met with
  | None => ret None
  | Some slow =>
      ptr1 <- get_head;;
      cycle_entry_loop k ptr1 slow
  end.

(** [from_iterable]: [cls(it)], the constructor on a new list object. *)
Definition from_iterable (it : list V) : M unit := __init__ (Some it).

End Embedding.

Arguments Node V : clear implicits.
Arguments state V : clear implicits.

(** The store before any object exists. *)
Definition blank {V} : state V := mkState ∅ None None 0.

(** * Predicates of the verification *)

Section Model.
Context {V : Type} {eq_V : EqDecision V} {countable_V : Countable V}.
Implicit Types (h : gmap loc (Node V)) (p q : option loc).
Implicit Types (ns : list (loc * V)) (st : state V) (l : loc) (v : V).

(** [lseg h p ns q]: following [next] from [p] visits exactly the nodes
    [ns] (identity and value, in order) and then arrives at [q]. *)
Fixpoint lseg h p ns q : Prop :=
  match ns with
  | [] => p = q
  | (l, v) :: ns' =>
      p = Some l /\ exists nx, h !! l = Some (mkNode v nx) /\ lseg h nx ns' q
  end.

(** The reference a chain starts with. *)
Definition entry ns (q : option loc) : option loc :=
  match ns with
  | [] => q
  | (l, _) :: _ => Some l
  end.

(** [repr st ns]: the list object denotes the chain [ns]: it starts at
    [head], ends in [None], [tail] is its last node and [_size] its
    length. *)
Definition repr st ns : Prop :=
  lseg (heap st) (head st) ns None /\
  tail st = last (ns.*1) /\
  _size st = Z.of_nat (length ns).

(** First node of a chain that holds [v], with its position. *)
Definition first_with v ns : option (nat * (loc * V)) :=
  list_find (fun n => n.2 = v) ns.

(** The nodes that survive a pass that starts with [seen] already met. *)
Fixpoint dedup_nodes (seen : gset V) ns : list (loc * V) :=
  match ns with
  | [] => []
  | (l, x) :: ns' =>
      if decide (x ∈ seen) then dedup_nodes seen ns'
      else (l, x) :: dedup_nodes ({[x]} ∪ seen) ns'
  end.

(** Follow [k] successor links from [p]; [None] when the walk leaves the
    chain before that. *)
Fixpoint succ_steps h (k : nat) p : option loc :=
  match k with
  | O => p
  | S k' =>
      match p with
      | None => None
      | Some l =>
          match h !! l with
          | Some nd => succ_steps h k' (next nd)
          | None => None
          end
      end
  end.

(** [t] is reached from [p] by exactly [k] successor steps. *)
Definition reached_in h p (k : Z) (t : loc) : Prop :=
  0 <= k /\ succ_steps h (Z.to_nat k) p = Some t.

(** count == 0 iff head is absent iff tail is absent; tail, when present,
    is reached from head by exactly count - 1 successor steps and its
    successor is absent. *)
Definition invariant st : Prop :=
  (_size st = 0 <-> head st = None) /\
  (head st = None <-> tail st = None) /\
  (forall t, tail st = Some t ->
     reached_in (heap st) (head st) (_size st - 1) t /\
     exists v, heap st !! t = Some (mkNode v None)).

(** ** Calls of the public interface *)

(** A call of a public method, its result dropped: what a caller that only
    looks at the list afterwards observes. *)
Inductive call : Type :=
  | call_prepend (v : V)
  | call_append (v : V)
  | call_insert (index : Z) (v : V)
  | call_get (index : Z)
  | call_set (index : Z) (v : V)
  | call_remove_at (index : Z)
  | call_remove (v : V)
  | call_pop_left
  | call_pop
  | call_reverse
  | call_remove_duplicates
  | call_clear
  | call_extend (iterable : list V).

Definition ignore {A} (m : M (V := V) A) : M unit :=
  bind m (fun _ => ret tt).

Definition run_call (c : call) : M (V := V) unit :=
  match c with
  | call_prepend v => prepend v
  | call_append v => append v
  | call_insert index v => insert index v
  | call_get index => ignore (get index)
  | call_set index v => set index v
  | call_remove_at index => ignore (remove_at index)
  | call_remove v => ignore (remove v)
  | call_pop_left => ignore pop_left
  | call_pop => ignore pop
  | call_reverse => reverse
  | call_remove_duplicates => remove_duplicates
  | call_clear => clear
  | call_extend iterable => extend iterable
  end.

(** A sequence of calls; a caller may catch an exception and go on, so the
    next call starts from the store the previous one left. *)
Fixpoint run_calls (cs : list call) st : state V :=
  match cs with
  | [] => st
  | c :: cs' => run_calls cs' (run_call c st).2
  end.

(** A list built by the constructor and public calls only. *)
Definition built (iterable : option (list V)) (cs : list call) : state V :=
  run_calls cs (__init__ iterable blank).2.

(** ** First occurrences, as the specification words them *)

(** Position [i] of [s] holds a value that no earlier position holds. *)
Definition is_first_occurrence (s : list V) (i : nat) : Prop :=
  match s !! i with
  | Some x => x ∉ take i s
  | None => False
  end.

#[global] Instance is_first_occurrence_dec s i :
  Decision (is_first_occurrence s i).
Proof. unfold is_first_occurrence. destruct (s !! i); apply _. Defined.

(** The subsequence of first occurrences, in their original order. *)
Definition first_occurrences (s : list V) : list V :=
  omap (fun i => s !! i) (filter (is_first_occurrence s) (seq 0 (length s))).

(** ** Computations that only read *)

(** [m] leaves the store as it found it, whatever its outcome. *)
Definition read_only {A} (m : M (V := V) A) : Prop :=
  forall st, (m st).2 = st.

(** ** Chains that run into a cycle *)

(** The reference reached from [head] after [k] successor steps. *)
Definition walk st (k : nat) : option loc :=
  succ_steps (heap st) k (head st).

(** The walk from [head] visits the distinct nodes [ns] and then comes back
    to [c], the node at position [mu] of [ns]: a tail of [mu] nodes followed
    by a cycle of [length ns - mu] nodes that starts at [c]. *)
Definition cycle_at st ns (mu : nat) (c : loc) : Prop :=
  lseg (heap st) (head st) ns (Some c) /\
  NoDup ns.*1 /\
  fst <$> ns !! mu = Some c.

End Model.

Ltac mrun :=
  repeat first
    [ progress unfold bind, ret, raise, diverge, get_head, get_tail, get_size,
        set_head, set_tail, set_size, new_Node, attr_value, attr_next,
        set_value, set_next, load, store, assert_not_None, fuel
    | progress cbn [heap head tail _size value next fst snd]
    | match goal with
      | Hl : ?h !! ?l = Some _ |- context [?h !! ?l] => rewrite Hl
      end
    | rewrite lookup_insert_eq
    | rewrite decide_True by (done || lia)
    | rewrite decide_False by (done || lia) ].

Ltac llia := cbn [length] in *; lia.

(** * Sample lists *)

(** Lists of integers built by the constructor, used to run the theorems on
    concrete inputs. *)
Definition sample : state Z := (__init__ (Some [10; 20; 10]) blank).2.
Definition single : state Z := (__init__ (Some [7]) blank).2.
Definition four : state Z := (__init__ (Some [1; 2; 3; 4]) blank).2.
Definition five : state Z := (__init__ (Some [1; 2; 3; 4; 5]) blank).2.

(** [four] after [ll.tail.next = ll.find(2)]: the chain 1, 2, 3, 4 and back
    to the node holding 2. *)
Definition looped : state Z :=
  (bind (find 2) (fun p => bind get_tail (fun t => set_next t p)) four).2.

(** Proves [invariant st] for a closed, non-empty [st] by evaluation. *)
Ltac invariant_by_evaluation :=
  split;
  [ vm_compute; split; intros Heq; discriminate Heq
  | split;
    [ vm_compute; split; intros Heq; discriminate Heq
    | let t := fresh "t" in
      let Ht := fresh "Ht" in
      intros t Ht; vm_compute in Ht; injection Ht as <-;
      split;
      [ split; [vm_compute; discriminate | vm_compute; reflexivity]
      | eexists; vm_compute; reflexivity ] ] ].

(** Proves [cycle_at st ns mu c] for closed arguments by evaluation. *)
Ltac cycle_at_by_evaluation :=
  split;
  [ cbn [lseg];
    repeat (split; [vm_compute; reflexivity|];
            eexists; split; [vm_compute; reflexivity|]);
    reflexivity
  | split;
    [ refine (bool_decide_unpack _ _); vm_compute; exact I
    | vm_compute; reflexivity ] ].

(** * Verification *)

Section Verification.
Context {V : Type} {eq_V : EqDecision V} {countable_V : Countable V}.
Implicit Types (h : gmap loc (Node V)) (p q : option loc).
Implicit Types (ns : list (loc * V)) (st : state V) (l : loc) (v : V).
Implicit Types (index : Z) (allow_end : bool) (k : nat).

(** ** Chains of nodes in the store *)

Lemma lseg_entry h p ns q : lseg h p ns q -> p = entry ns q.
Proof. destruct ns as [|[l v] ns]; simpl; [done | by intros [-> _]]. Qed.

Lemma lseg_app h p ns1 ns2 q :
  lseg h p (ns1 ++ ns2) q <-> exists m, lseg h p ns1 m /\ lseg h m ns2 q.
Proof.
  revert p. induction ns1 as [|[l v] ns1 IH]; intros p; simpl.
  - split; [intros Hs; by exists p | by intros (m & -> & Hs)].
  - split.
    + intros (-> & nx & Hl & Hs). apply IH in Hs as (m & H1 & H2).
      exists m. split; [|done]. split; [done|]. by exists nx.
    + intros (m & (-> & nx & Hl & H1) & H2). split; [done|].
      exists nx. split; [done|]. apply IH. by exists m.
Qed.

Lemma lseg_lookup h p ns q l :
  lseg h p ns q -> l ∈ ns.*1 -> is_Some (h !! l).
Proof.
  revert p. induction ns as [|[l' v] ns IH]; intros p; simpl.
  - intros _ Hin. by apply elem_of_nil in Hin.
  - intros (-> & nx & Hl & Hs) [->|Hin]%elem_of_cons; [by eexists | eauto].
Qed.

Lemma lseg_insert_ne h p ns q l nd :
  l ∉ ns.*1 -> lseg h p ns q -> lseg (<[l := nd]> h) p ns q.
Proof.
  revert p. induction ns as [|[l' v] ns IH]; intros p; simpl; [done|].
  intros Hnin (-> & nx & Hl & Hs). apply not_elem_of_cons in Hnin as [Hne Hnin].
  split; [done|]. exists nx. split; [by rewrite lookup_insert_ne | by apply IH].
Qed.

Lemma lseg_fresh h p ns q nd :
  lseg h p ns q -> lseg (<[fresh (dom h) := nd]> h) p ns q.
Proof.
  intros Hs. apply lseg_insert_ne; [|done].
  intros Hin. apply (lseg_lookup _ _ _ _ _ Hs) in Hin.
  apply elem_of_dom in Hin. by apply is_fresh in Hin.
Qed.

(** A chain that ends in [None] is determined by where it starts. *)
Lemma lseg_func h p ns1 ns2 :
  lseg h p ns1 None -> lseg h p ns2 None -> ns1 = ns2.
Proof.
  revert p ns2. induction ns1 as [|[l v] ns1 IH]; intros p [|[l' v'] ns2]; simpl.
  - done.
  - by intros -> [? _].
  - by intros [-> _] ?.
  - intros (-> & nx & Hl & Hs) (Heq & nx' & Hl' & Hs').
    injection Heq as <-. rewrite Hl in Hl'. injection Hl' as <- <-.
    f_equal. eauto.
Qed.

Lemma lseg_suffix_of_elem h p ns l :
  lseg h p ns None -> l ∈ ns.*1 ->
  exists ns1 ns2, ns = ns1 ++ ns2 /\ lseg h (Some l) ns2 None /\ ns2 <> [].
Proof.
  revert p. induction ns as [|[l' v] ns IH]; intros p; simpl.
  - intros _ Hin. by apply elem_of_nil in Hin.
  - intros (-> & nx & Hl & Hs) [->|Hin]%elem_of_cons.
    + exists [], ((l', v) :: ns). split; [done|]. split; [|done].
      simpl. split; [done|]. by exists nx.
    + destruct (IH _ Hs Hin) as (ns1 & ns2 & -> & H2 & Hne).
      by exists ((l', v) :: ns1), ns2.
Qed.

Lemma lseg_NoDup h p ns : lseg h p ns None -> NoDup ns.*1.
Proof.
  revert p. induction ns as [|[l v] ns IH]; intros p Hs; simpl.
  - constructor.
  - pose proof Hs as Hs0. destruct Hs as (-> & nx & Hl & Hs).
    constructor; [|by eapply IH].
    intros Hin.
    destruct (lseg_suffix_of_elem _ _ _ _ Hs Hin) as (ns1 & ns2 & -> & H2 & _).
    pose proof (lseg_func _ _ _ _ Hs0 H2) as Heq.
    apply (f_equal length) in Heq. simpl in Heq. rewrite length_app in Heq. lia.
Qed.

Lemma lseg_length h p ns : lseg h p ns None -> (length ns <= size h)%nat.
Proof.
  intros Hs. pose proof (lseg_NoDup _ _ _ Hs) as Hnd.
  rewrite <- (length_fmap fst ns).
  rewrite <- (size_list_to_set (C := gset loc) (ns.*1)); [|done].
  rewrite <- size_dom. apply subseteq_size.
  intros l Hl. apply elem_of_list_to_set in Hl.
  apply elem_of_dom. by eapply lseg_lookup.
Qed.

(** ** The representation invariant *)

Lemma repr_func st ns1 ns2 : repr st ns1 -> repr st ns2 -> ns1 = ns2.
Proof. intros (H1 & _) (H2 & _). by eapply lseg_func. Qed.

(** ** Traversal: [__iter__] and [to_list] *)

Lemma iter_loop_spec st p ns k :
  lseg (heap st) p ns None -> (length ns < k)%nat ->
  iter_loop k p st = (Return ns.*2, st).
Proof.
  revert p k. induction ns as [|[l v] ns IH]; intros p [|k] Hs Hk;
    simpl in Hk; try lia; simpl in Hs.
  - by subst p.
  - destruct Hs as (-> & nx & Hl & Hs). simpl. mrun.
    rewrite (IH nx k) by (done || lia). done.
Qed.

Lemma to_list_spec st ns : repr st ns -> to_list st = (Return ns.*2, st).
Proof.
  intros (Hs & _ & _). unfold to_list. mrun.
  apply iter_loop_spec; [done|]. pose proof (lseg_length _ _ _ Hs). lia.
Qed.

(** ** Index validation, [_node_at], [get] and [set] *)

Lemma _check_index_ok st index allow_end :
  0 <= index -> index <= (if allow_end then _size st else _size st - 1) ->
  _check_index index allow_end st = (Return tt, st).
Proof.
  intros H0 H1. unfold _check_index. destruct allow_end; by mrun.
Qed.

Lemma _check_index_raise st index allow_end :
  index < 0 \/ index > (if allow_end then _size st else _size st - 1) ->
  _check_index index allow_end st = (Raise IndexError, st).
Proof.
  intros Hbad. unfold _check_index. destruct allow_end; by mrun.
Qed.

Lemma lseg_split h p ns k l v :
  lseg h p ns None -> ns !! k = Some (l, v) ->
  exists nx,
    h !! l = Some (mkNode v nx) /\
    lseg h p (take k ns) (Some l) /\
    lseg h nx (drop (S k) ns) None /\
    (l ∉ (take k ns).*1) /\ (l ∉ (drop (S k) ns).*1).
Proof.
  intros Hs Hk. pose proof (lseg_NoDup _ _ _ Hs) as Hnd.
  rewrite <- (take_drop_middle ns k (l, v) Hk) in Hs, Hnd.
  apply lseg_app in Hs as (m & H1 & H2). simpl in H2.
  destruct H2 as (-> & nx & Hl & H2).
  rewrite fmap_app, fmap_cons in Hnd. simpl in Hnd.
  apply NoDup_app in Hnd as (_ & Hd & Hnd2).
  apply NoDup_cons in Hnd2 as (Hn2 & _).
  exists nx. repeat split; try done.
  intros Hin. apply (Hd _ Hin). by left.
Qed.

Lemma _node_at_loop_spec st p ns k :
  lseg (heap st) p ns None -> (k <= length ns)%nat ->
  _node_at_loop k p st = (Return (entry (drop k ns) None), st).
Proof.
  revert p ns. induction k as [|k IH]; intros p ns Hs Hk.
  - simpl. rewrite drop_0. by rewrite <- (lseg_entry _ _ _ _ Hs).
  - destruct ns as [|[l v] ns]; simpl in Hk; [lia|].
    destruct Hs as (-> & nx & Hl & Hs). simpl. mrun.
    apply IH; [done | lia].
Qed.

Lemma _node_at_spec st ns index l v :
  repr st ns -> 0 <= index -> ns !! Z.to_nat index = Some (l, v) ->
  _node_at index st = (Return (Some l), st).
Proof.
  intros (Hs & _ & Hsz) H0 Hk. pose proof (lookup_lt_Some _ _ _ Hk) as Hlt.
  unfold _node_at. mrun.
  rewrite _check_index_ok by lia.
  rewrite (_node_at_loop_spec st (head st) ns) by (done || lia).
  rewrite (drop_S _ _ _ Hk). simpl. by mrun.
Qed.

Lemma _node_at_raise st index :
  index < 0 \/ _size st <= index ->
  _node_at index st = (Raise IndexError, st).
Proof.
  intros Hbad. unfold _node_at. mrun.
  rewrite _check_index_raise by lia. done.
Qed.

Lemma get_spec st ns index l v :
  repr st ns -> 0 <= index -> ns !! Z.to_nat index = Some (l, v) ->
  get index st = (Return v, st).
Proof.
  intros Hr H0 Hk. unfold get. mrun.
  rewrite (_node_at_spec st ns index l v) by done.
  destruct Hr as (Hs & _).
  destruct (lseg_split _ _ _ _ _ _ Hs Hk) as (nx & Hl & _). by mrun.
Qed.

Lemma get_raise st index :
  index < 0 \/ _size st <= index -> get index st = (Raise IndexError, st).
Proof.
  intros Hbad. unfold get. mrun. by rewrite _node_at_raise.
Qed.

Lemma lseg_join h p ns1 l v nx ns2 q :
  lseg h p ns1 (Some l) -> h !! l = Some (mkNode v nx) -> lseg h nx ns2 q ->
  lseg h p (ns1 ++ (l, v) :: ns2) q.
Proof.
  intros H1 Hl H2. apply lseg_app. exists (Some l). split; [done|].
  simpl. split; [done|]. by exists nx.
Qed.

Lemma last_fmap_insert_fst ns k l v v' :
  ns !! k = Some (l, v) -> (<[k := (l, v')]> ns).*1 = ns.*1.
Proof.
  intros Hk. rewrite list_fmap_insert. simpl.
  apply list_insert_id. by rewrite list_lookup_fmap, Hk.
Qed.

Lemma set_spec st ns index l v v' :
  repr st ns -> 0 <= index -> ns !! Z.to_nat index = Some (l, v) ->
  exists st', set index v' st = (Return tt, st') /\
              repr st' (<[Z.to_nat index := (l, v')]> ns).
Proof.
  intros Hr H0 Hk. unfold set. mrun.
  rewrite (_node_at_spec st ns index l v) by done.
  destruct Hr as (Hs & Ht & Hsz).
  destruct (lseg_split _ _ _ _ _ _ Hs Hk) as (nx & Hl & H1 & H2 & Hn1 & Hn2).
  mrun. eexists. split; [done|]. repeat split; mrun.
  - rewrite insert_take_drop by (by eapply lookup_lt_Some).
    eapply lseg_join.
    + by apply lseg_insert_ne.
    + apply lookup_insert_eq.
    + by apply lseg_insert_ne.
  - by rewrite (last_fmap_insert_fst _ _ _ v).
  - by rewrite length_insert.
Qed.

Lemma set_raise st index v :
  index < 0 \/ _size st <= index -> set index v st = (Raise IndexError, st).
Proof.
  intros Hbad. unfold set. mrun. by rewrite _node_at_raise.
Qed.

(** ** [prepend], [append], [extend], [__init__], [insert], [clear] *)

Lemma last_cons_fst l v ns :
  last (((l, v) :: ns).*1) = match ns with [] => Some l | _ => last (ns.*1) end.
Proof. by destruct ns. Qed.

Lemma prepend_spec st ns v :
  repr st ns ->
  exists l st', prepend v st = (Return tt, st') /\ repr st' ((l, v) :: ns).
Proof.
  intros (Hs & Ht & Hsz). unfold prepend. mrun.
  exists (fresh (dom (heap st))).
  destruct (decide (_size st = 0)) as [Hz|Hnz]; mrun;
    (eexists; split; [done|]); (split; [|split]); mrun.
  - split; [done|]. exists (head st).
    split; [apply lookup_insert_eq | by apply lseg_fresh].
  - destruct ns; [done | simpl in Hsz; lia].
  - rewrite Hsz. simpl length. lia.
  - split; [done|]. exists (head st).
    split; [apply lookup_insert_eq | by apply lseg_fresh].
  - destruct ns; [simpl in Hsz; lia | done].
  - rewrite Hsz. simpl length. lia.
Qed.

Lemma lseg_snoc_inv h p ns t tv :
  lseg h p (ns ++ [(t, tv)]) None ->
  h !! t = Some (mkNode tv None) /\ lseg h p ns (Some t) /\ t ∉ ns.*1.
Proof.
  intros Hs.
  assert ((ns ++ [(t, tv)]) !! length ns = Some (t, tv)) as Hk
    by (by rewrite list_lookup_middle).
  destruct (lseg_split _ _ _ _ _ _ Hs Hk) as (nx & Hl & H1 & H2 & Hn1 & _).
  rewrite take_app_length in H1, Hn1.
  rewrite drop_ge in H2 by (rewrite length_app; simpl; lia).
  simpl in H2. by subst nx.
Qed.

Lemma last_snoc_fst ns l v : last ((ns ++ [(l, v)]).*1) = Some l.
Proof. rewrite fmap_app. simpl. apply last_snoc. Qed.

Lemma fresh_ne h l : is_Some (h !! l) -> fresh (dom h) <> l.
Proof.
  intros Hl%elem_of_dom Heq. subst l. by apply is_fresh in Hl.
Qed.

Lemma append_spec st ns v :
  repr st ns ->
  exists l st', append v st = (Return tt, st') /\ repr st' (ns ++ [(l, v)]).
Proof.
  intros (Hs & Ht & Hsz). unfold append. mrun.
  exists (fresh (dom (heap st))).
  destruct ns as [|[t tv] ns _] using rev_ind.
  - simpl in *. mrun. eexists. split; [done|]. split; [|split]; mrun; try done.
    + split; [done|]. exists None. split; [apply lookup_insert_eq | done].
    + simpl. lia.
  - rewrite length_app in Hsz. simpl in Hsz.
    rewrite last_snoc_fst in Ht.
    apply lseg_snoc_inv in Hs as (Hl & Hs & Hnin).
    pose proof (fresh_ne (heap st) t (mk_is_Some _ _ Hl)) as Hne.
    mrun. rewrite Ht. mrun. rewrite lookup_insert_ne by done. mrun.
    eexists. split; [done|]. split; [|split]; mrun.
    + eapply lseg_join.
      * eapply lseg_join.
        -- apply lseg_insert_ne; [done|]. by apply lseg_fresh.
        -- apply lookup_insert_eq.
        -- simpl. reflexivity.
      * rewrite lookup_insert_ne by done. apply lookup_insert_eq.
      * done.
    + by rewrite last_snoc_fst.
    + rewrite !length_app. simpl. lia.
Qed.

Lemma extend_spec st ns (vs : list V) :
  repr st ns ->
  exists ns' st',
    extend vs st = (Return tt, st') /\ repr st' (ns ++ ns') /\ ns'.*2 = vs.
Proof.
  revert st ns. induction vs as [|x vs IH]; intros st ns Hr.
  - exists [], st. by rewrite app_nil_r.
  - destruct (append_spec st ns x Hr) as (l & st1 & Hrun & Hr1).
    destruct (IH _ _ Hr1) as (ns' & st2 & Hrun2 & Hr2 & Hvs).
    exists ((l, x) :: ns'), st2. simpl. mrun. rewrite Hrun.
    split; [done|]. split; [|by f_equal].
    by rewrite <- app_assoc in Hr2.
Qed.

Lemma repr_empty h : repr (mkState h None None 0) [].
Proof. done. Qed.

Lemma clear_spec st :
  exists st', clear st = (Return tt, st') /\ repr st' [].
Proof. eexists. split; [reflexivity | apply repr_empty]. Qed.

Lemma __init___spec st (iterable : option (list V)) :
  exists ns st',
    __init__ iterable st = (Return tt, st') /\ repr st' ns /\
    ns.*2 = default [] iterable.
Proof.
  unfold __init__. mrun. destruct iterable as [vs|]; simpl.
  - destruct (extend_spec _ [] vs (repr_empty (heap st)))
      as (ns & st' & Hrun & Hr & Hvs).
    by exists ns, st'.
  - exists [], (mkState (heap st) None None 0). by mrun.
Qed.

Lemma last_fst_app ns1 ns2 :
  ns2 <> [] -> last ((ns1 ++ ns2).*1) = last (ns2.*1).
Proof.
  intros Hne. rewrite fmap_app, last_app.
  destruct ns2 as [|n ns2 _] using rev_ind; [done|].
  destruct n as [l v]. by rewrite last_snoc_fst.
Qed.

Lemma insert_spec st ns index v :
  repr st ns -> 0 <= index <= _size st ->
  exists l st',
    insert index v st = (Return tt, st') /\
    repr st' (take (Z.to_nat index) ns ++ (l, v) :: drop (Z.to_nat index) ns).
Proof.
  intros Hr Hi. unfold insert. mrun.
  rewrite _check_index_ok by lia.
  destruct (decide (index = 0)) as [->|Hn0].
  { change (Z.to_nat 0) with 0%nat. rewrite take_0, drop_0. simpl.
    by apply prepend_spec. }
  destruct (decide (index = _size st)) as [Heq|Hne].
  { destruct (append_spec st ns v Hr) as (l & st' & Hrun & Hr').
    exists l, st'. split; [done|]. destruct Hr as (_ & _ & Hsz).
    rewrite take_ge, drop_ge by lia. done. }
  pose proof Hr as (Hs & Ht & Hsz).
  destruct (lookup_lt_is_Some_2 ns (Z.to_nat (index - 1))) as [[pl pv] Hk];
    [lia|].
  rewrite (_node_at_spec st ns (index - 1) pl pv) by (done || lia).
  destruct (lseg_split _ _ _ _ _ _ Hs Hk) as (nx & Hl & H1 & H2 & Hn1 & Hn2).
  replace (S (Z.to_nat (index - 1))) with (Z.to_nat index) in * by lia.
  pose proof (fresh_ne (heap st) pl (mk_is_Some _ _ Hl)) as Hfr.
  mrun. rewrite lookup_insert_ne by done. mrun.
  exists (fresh (dom (heap st))). eexists. split; [done|].
  assert (take (Z.to_nat index) ns = take (Z.to_nat (index - 1)) ns ++ [(pl, pv)])
    as Htk.
  { replace (Z.to_nat index) with (S (Z.to_nat (index - 1))) by lia.
    by apply take_S_r. }
  split; [|split]; mrun.
  - rewrite Htk, <- app_assoc. simpl. eapply lseg_join.
    + apply lseg_insert_ne; [done|]. by apply lseg_fresh.
    + apply lookup_insert_eq.
    + simpl. split; [done|]. exists nx. split.
      * rewrite lookup_insert_ne by done. apply lookup_insert_eq.
      * apply lseg_insert_ne; [done|]. by apply lseg_fresh.
  - rewrite Ht. rewrite <- (take_drop (Z.to_nat index) ns) at 1.
    assert (drop (Z.to_nat index) ns <> []) as Hdne.
    { intros Hnil. apply (f_equal length) in Hnil.
      rewrite length_drop in Hnil. simpl in Hnil. lia. }
    rewrite last_fst_app by done.
    rewrite (last_fst_app _ (_ :: _)) by done.
    rewrite fmap_cons, last_cons.
    destruct (last (drop (Z.to_nat index) ns).*1) eqn:E; [done|].
    apply last_None in E. apply fmap_nil_inv in E. done.
  - rewrite length_app. simpl. rewrite length_take, length_drop. lia.
Qed.

Lemma insert_raise st index v :
  index < 0 \/ _size st < index -> insert index v st = (Raise IndexError, st).
Proof.
  intros Hbad. unfold insert. mrun. rewrite _check_index_raise by lia. done.
Qed.

(** ** Search: [index_of], [__contains__], [find] *)

Lemma first_with_cons v l x ns :
  first_with v ((l, x) :: ns) =
  if decide (x = v) then Some (0%nat, (l, x))
  else prod_map S id <$> first_with v ns.
Proof. unfold first_with. simpl. by destruct (decide (x = v)). Qed.

Lemma index_of_loop_spec st p ns k v (i : Z) :
  lseg (heap st) p ns None -> (length ns < k)%nat ->
  index_of_loop k v p i st =
  (Return (match first_with v ns with
           | Some (j, _) => i + Z.of_nat j
           | None => -1
           end), st).
Proof.
  revert p k i. induction ns as [|[l x] ns IH]; intros p [|k] i Hs Hk;
    simpl in Hk; try lia; simpl in Hs.
  - by subst p.
  - destruct Hs as (-> & nx & Hl & Hs). rewrite first_with_cons. simpl. mrun.
    destruct (decide (x = v)) as [Hx|Hx].
    + do 2 f_equal. lia.
    + mrun. rewrite (IH nx k (i + 1)) by (done || lia).
      destruct (first_with v ns) as [[j n]|]; simpl; [|done].
      do 2 f_equal. lia.
Qed.

Lemma index_of_spec st ns v :
  repr st ns ->
  index_of v st =
  (Return (match first_with v ns with
           | Some (j, _) => Z.of_nat j
           | None => -1
           end), st).
Proof.
  intros (Hs & _ & _). unfold index_of. mrun.
  rewrite (index_of_loop_spec st (head st) ns).
  - by destruct (first_with v ns) as [[j n]|].
  - done.
  - pose proof (lseg_length _ _ _ Hs). lia.
Qed.

Lemma __contains___spec st ns v :
  repr st ns ->
  __contains__ v st = (Return (bool_decide (is_Some (first_with v ns))), st).
Proof.
  intros Hr. unfold __contains__. mrun. rewrite (index_of_spec st ns v Hr).
  destruct (first_with v ns) as [[j n]|]; [|done].
  do 2 f_equal. rewrite !bool_decide_eq_true_2; [done | by eexists | lia].
Qed.

Lemma find_loop_spec st p ns k v :
  lseg (heap st) p ns None -> (length ns < k)%nat ->
  find_loop k v p st =
  (Return (match first_with v ns with
           | Some (_, (l, _)) => Some l
           | None => None
           end), st).
Proof.
  revert p k. induction ns as [|[l x] ns IH]; intros p [|k] Hs Hk;
    simpl in Hk; try lia; simpl in Hs.
  - by subst p.
  - destruct Hs as (-> & nx & Hl & Hs). rewrite first_with_cons. simpl. mrun.
    destruct (decide (x = v)) as [Hx|Hx]; [done|].
    mrun. rewrite (IH nx k) by (done || lia).
    by destruct (first_with v ns) as [[j [l' x']]|].
Qed.

Lemma find_spec st ns v :
  repr st ns ->
  find v st =
  (Return (match first_with v ns with
           | Some (_, (l, _)) => Some l
           | None => None
           end), st).
Proof.
  intros (Hs & _ & _). unfold find. mrun.
  apply find_loop_spec; [done|]. pose proof (lseg_length _ _ _ Hs). lia.
Qed.

(** ** Removal: [pop_left], [pop], [remove_at], [remove] *)

Lemma pop_left_spec st l v ns :
  repr st ((l, v) :: ns) ->
  exists st', pop_left st = (Return v, st') /\ repr st' ns.
Proof.
  intros (Hs & Ht & Hsz). simpl in Hs, Hsz.
  destruct Hs as (Hh & nx & Hl & Hs).
  unfold pop_left. mrun. rewrite Hh. mrun.
  rewrite last_cons_fst in Ht.
  destruct ns as [|n ns].
  - simpl in *. mrun. eexists. split; [done|].
    split; [|split]; mrun; [done | done | llia].
  - cbn [length] in *. mrun. eexists. split; [done|].
    split; [|split]; mrun; [done | done | llia].
Qed.

Lemma pop_left_raise st :
  _size st = 0 -> pop_left st = (Raise IndexError, st).
Proof. intros Hz. unfold pop_left. by mrun. Qed.

(** Unlinking the successor [l] of the node [pl]: the step shared by
    [pop], [remove_at], [remove] and [remove_duplicates]. *)
Lemma unlink_repr st ns1 pl pv l v ns2 :
  repr st (ns1 ++ (pl, pv) :: (l, v) :: ns2) ->
  exists nx,
    heap st !! pl = Some (mkNode pv (Some l)) /\
    heap st !! l = Some (mkNode v nx) /\
    nx = entry ns2 None /\
    (tail st = Some l <-> ns2 = []) /\
    forall t',
      t' = (if decide (ns2 = []) then Some pl else tail st) ->
      repr (mkState (<[pl := mkNode pv nx]> (heap st)) (head st) t'
              (_size st - 1))
           (ns1 ++ (pl, pv) :: ns2).
Proof.
  intros (Hs & Ht & Hsz).
  pose proof (lseg_NoDup _ _ _ Hs) as Hnd.
  apply lseg_app in Hs as (m & H1 & H2). simpl in H2.
  destruct H2 as (-> & nx0 & Hpl & -> & nx & Hl & H2).
  rewrite fmap_app in Hnd. simpl in Hnd.
  apply NoDup_app in Hnd as (_ & Hd & Hnd2).
  apply NoDup_cons in Hnd2 as (Hp2 & Hnd3).
  apply NoDup_cons in Hnd3 as (Hl2 & _).
  assert (pl ∉ ns1.*1) as Hp1 by (intros Hin; apply (Hd _ Hin); by left).
  assert (pl ∉ ns2.*1) as Hp3 by (intros Hin; apply Hp2; by right).
  assert (last ((ns1 ++ (pl, pv) :: (l, v) :: ns2).*1) =
          match ns2 with [] => Some l | _ => last (ns2.*1) end) as Hlast.
  { rewrite last_fst_app by done. by destruct ns2. }
  exists nx. split; [done|]. split; [done|].
  split; [by apply lseg_entry in H2|]. split.
  - rewrite Ht, Hlast. split.
    + intros Heq. destruct ns2 as [|n2 ns2]; [done|]. exfalso.
      apply Hl2. apply list_elem_of_lookup.
      change (last (n2 :: ns2).*1) with (last ((n2 :: ns2).*1)) in Heq.
      rewrite last_lookup in Heq. eauto.
    + by intros ->.
  - intros t' ->. split; [|split]; mrun.
    + eapply lseg_join.
      * by apply lseg_insert_ne.
      * apply lookup_insert_eq.
      * by apply lseg_insert_ne.
    + rewrite last_fst_app by done. rewrite Ht, Hlast.
      destruct ns2; [by rewrite decide_True | by rewrite decide_False].
    + rewrite Hsz, !length_app. simpl. lia.
Qed.

Lemma pop_spec st ns l v :
  repr st (ns ++ [(l, v)]) ->
  exists st', pop st = (Return v, st') /\ repr st' ns.
Proof.
  intros Hr. pose proof Hr as (Hs & Ht & Hsz).
  rewrite length_app in Hsz. simpl in Hsz. rewrite last_snoc_fst in Ht.
  unfold pop. mrun.
  destruct ns as [|[pl pv] ns _] using rev_ind.
  - simpl in *. mrun. by apply (pop_left_spec st l v []).
  - rewrite length_app in Hsz. simpl in Hsz. mrun.
    rewrite <- app_assoc in Hr. simpl in Hr.
    rewrite (_node_at_spec st _ (_size st - 2) pl pv Hr); [|lia|].
    2:{ replace (Z.to_nat (_size st - 2)) with (length ns) by lia.
        by rewrite list_lookup_middle. }
    destruct (unlink_repr _ _ _ _ _ _ _ Hr) as (nx & Hpl & Hl & Hnx & _ & Hr').
    simpl in Hnx. subst nx. mrun. rewrite Ht. mrun.
    eexists. split; [done|]. by apply Hr'.
Qed.

Lemma pop_raise st : _size st = 0 -> pop st = (Raise IndexError, st).
Proof. intros Hz. unfold pop. by mrun. Qed.

Lemma remove_at_spec st ns index l v :
  repr st ns -> 0 <= index -> ns !! Z.to_nat index = Some (l, v) ->
  exists st',
    remove_at index st = (Return v, st') /\
    repr st' (delete (Z.to_nat index) ns).
Proof.
  intros Hr H0 Hk. pose proof (lookup_lt_Some _ _ _ Hk) as Hlt.
  pose proof Hr as (Hs & Ht & Hsz).
  unfold remove_at. mrun. rewrite _check_index_ok by lia.
  destruct (decide (index = 0)) as [->|Hn0].
  { destruct ns as [|n ns]; [done|]. simpl in Hk. injection Hk as ->.
    simpl. by apply (pop_left_spec st l v ns). }
  destruct (lookup_lt_is_Some_2 ns (Z.to_nat (index - 1))) as [[pl pv] Hp];
    [lia|].
  rewrite (_node_at_spec st ns (index - 1) pl pv) by (done || lia).
  assert (ns = take (Z.to_nat (index - 1)) ns ++ (pl, pv) :: (l, v) ::
               drop (S (Z.to_nat index)) ns) as Hns.
  { rewrite <- (take_drop_middle ns _ _ Hp) at 1. do 2 f_equal.
    replace (S (Z.to_nat (index - 1))) with (Z.to_nat index) by lia.
    by apply drop_S. }
  assert (delete (Z.to_nat index) ns =
          take (Z.to_nat (index - 1)) ns ++ (pl, pv) ::
            drop (S (Z.to_nat index)) ns) as Hdel.
  { rewrite delete_take_drop.
    replace (Z.to_nat index) with (S (Z.to_nat (index - 1))) at 1 by lia.
    rewrite (take_S_r _ _ _ Hp), <- app_assoc. done. }
  rewrite Hdel. rewrite Hns in Hr.
  destruct (unlink_repr _ _ _ _ _ _ _ Hr) as (nx & Hpl & Hl & _ & _ & Hr').
  assert (drop (S (Z.to_nat index)) ns = [] <-> index = _size st - 1) as Hlast.
  { split.
    - intros Hnil%(f_equal length). rewrite length_drop in Hnil.
      simpl in Hnil. lia.
    - intros ->. apply drop_ge. lia. }
  mrun. destruct (decide (index = _size st - 1)) as [He|He]; mrun;
    (eexists; split; [done|]); apply Hr'.
  - rewrite decide_True; [done | by apply Hlast].
  - rewrite decide_False; [done | by rewrite Hlast].
Qed.

Lemma remove_at_raise st index :
  index < 0 \/ _size st <= index ->
  remove_at index st = (Raise IndexError, st).
Proof.
  intros Hbad. unfold remove_at. mrun. by rewrite _check_index_raise by lia.
Qed.

Lemma remove_loop_spec st ns1 pl pv ns2 k v :
  repr st (ns1 ++ (pl, pv) :: ns2) -> (length ns2 < k)%nat ->
  match first_with v ns2 with
  | Some (j, _) =>
      exists st',
        remove_loop k v (Some pl) (entry ns2 None) st = (Return true, st') /\
        repr st' (ns1 ++ (pl, pv) :: delete j ns2)
  | None =>
      remove_loop k v (Some pl) (entry ns2 None) st = (Return false, st)
  end.
Proof.
  revert ns1 pl pv k. induction ns2 as [|[l x] ns2 IH];
    intros ns1 pl pv [|k] Hr Hk; simpl in Hk; try lia.
  - done.
  - rewrite first_with_cons.
    destruct (unlink_repr _ _ _ _ _ _ _ Hr) as (nx & Hpl & Hl & Hnx & Htl & Hr').
    simpl. mrun. destruct (decide (x = v)) as [Hx|Hx]; mrun.
    + destruct (decide (Some l = tail st)) as [He|He]; mrun;
        (eexists; split; [done|]); apply Hr'.
      * rewrite decide_True; [done|]. by apply Htl.
      * rewrite decide_False; [done|]. intros Hnil. by apply He, eq_sym, Htl.
    + subst nx.
      specialize (IH (ns1 ++ [(pl, pv)]) l x k).
      rewrite <- app_assoc in IH. specialize (IH Hr ltac:(lia)).
      destruct (first_with v ns2) as [[j n]|]; simpl.
      * destruct IH as (st' & Hrun & Hr2). exists st'. split; [done|].
        by rewrite <- app_assoc in Hr2.
      * done.
Qed.

Lemma remove_spec st ns v :
  repr st ns ->
  match first_with v ns with
  | Some (j, _) =>
      exists st', remove v st = (Return true, st') /\ repr st' (delete j ns)
  | None => remove v st = (Return false, st)
  end.
Proof.
  intros Hr. pose proof Hr as (Hs & Ht & Hsz). unfold remove.
  destruct ns as [|[l x] ns].
  - simpl in *. by mrun.
  - rewrite first_with_cons. cbn [length] in Hsz.
    pose proof (lseg_length _ _ _ Hs) as Hlen. cbn [length] in Hlen.
    simpl in Hs. destruct Hs as (Hh & nx & Hl & Hs).
    destruct (decide (x = v)) as [Hx|Hx].
    + destruct (pop_left_spec _ _ _ _ Hr) as (st' & Hrun & Hr').
      exists st'. repeat (progress (mrun; rewrite ?Hh)). rewrite Hrun. done.
    + pose proof (remove_loop_spec st [] l x ns (S (size (heap st))) v Hr
                    ltac:(lia)) as Hloop.
      rewrite <- (lseg_entry _ _ _ _ Hs) in Hloop.
      destruct (first_with v ns) as [[j n]|];
        cbn [fmap option_fmap option_map prod_map fst snd];
        [destruct Hloop as (st' & Hrun & Hr'); exists st'|];
        repeat (progress (mrun; rewrite ?Hh)); by rewrite ?decide_False.
Qed.

(** ** [reverse] *)

Lemma reverse_loop_spec st k prev cur acc rest :
  lseg (heap st) cur rest None -> lseg (heap st) prev acc None ->
  (forall l, l ∈ rest.*1 -> l ∉ acc.*1) -> (length rest < k)%nat ->
  exists h',
    reverse_loop k prev cur st =
      (Return (entry (list.reverse rest ++ acc) None),
       mkState h' (head st) (tail st) (_size st)) /\
    lseg h' (entry (list.reverse rest ++ acc) None) (list.reverse rest ++ acc) None.
Proof.
  revert st k prev cur acc. induction rest as [|[l x] rest IH];
    intros st [|k] prev cur acc Hc Hp Hdisj Hk; simpl in Hk; try lia.
  - simpl in Hc. subst cur. exists (heap st). simpl.
    rewrite <- (lseg_entry _ _ _ _ Hp). split; [by destruct st | done].
  - pose proof (lseg_NoDup _ _ _ Hc) as Hnd. simpl in Hnd.
    apply NoDup_cons in Hnd as (Hl1 & Hnd).
    destruct Hc as (-> & nx & Hl & Hc).
    assert (l ∉ acc.*1) as Hl2 by (apply Hdisj; simpl; by left).
    simpl. mrun.
    set (st1 := mkState (<[l := mkNode x prev]> (heap st)) (head st)
                  (tail st) (_size st)).
    destruct (IH st1 k (Some l) nx ((l, x) :: acc)) as (h' & Hrun & Hres).
    + by apply lseg_insert_ne.
    + simpl. split; [done|]. exists prev.
      split; [apply lookup_insert_eq | by apply lseg_insert_ne].
    + intros l' Hin. simpl. apply not_elem_of_cons. split.
      * intros ->. done.
      * apply Hdisj. simpl. by right.
    + lia.
    + exists h'. rewrite reverse_cons, <- app_assoc. simpl. done.
Qed.

Lemma last_reverse_fst ns : last ((list.reverse ns).*1) = entry ns None.
Proof. rewrite fmap_reverse, last_reverse. by destruct ns as [|[l v] ns]. Qed.

Lemma reverse_spec st ns :
  repr st ns ->
  exists st', reverse st = (Return tt, st') /\ repr st' (list.reverse ns).
Proof.
  intros (Hs & Ht & Hsz). unfold reverse. mrun.
  destruct (reverse_loop_spec
              (mkState (heap st) (head st) (head st) (_size st))
              (S (size (heap st))) None (head st) [] ns)
    as (h' & Hrun & Hres).
  - done.
  - done.
  - intros l _ Hin. by apply elem_of_nil in Hin.
  - pose proof (lseg_length _ _ _ Hs). simpl. lia.
  - cbn [heap head tail _size] in Hrun. rewrite app_nil_r in Hrun, Hres. rewrite Hrun. mrun.
    eexists. split; [done|]. split; [|split]; mrun.
    + done.
    + rewrite last_reverse_fst. by apply lseg_entry in Hs.
    + by rewrite length_reverse.
Qed.

(** ** [middle_node] and [has_cycle] *)

Lemma entry_drop ns k : entry (drop k ns) None = fst <$> ns !! k.
Proof.
  revert k. induction ns as [|[l v] ns IH]; intros [|k]; simpl; auto.
Qed.

Lemma fast_can_advance_spec st fast ns :
  lseg (heap st) fast ns None ->
  fast_can_advance fast st =
  (Return (match ns with _ :: _ :: _ => true | _ => false end), st).
Proof.
  intros Hs. destruct ns as [|[l v] ns]; simpl in Hs.
  - by subst fast.
  - destruct Hs as (-> & nx & Hl & Hs). simpl. mrun.
    destruct ns as [|[l' v'] ns]; simpl in Hs.
    + by subst nx.
    + by destruct Hs as (-> & _).
Qed.

Lemma div2_SS (n : nat) : (S (S n) / 2 = S (n / 2))%nat.
Proof.
  replace (S (S n)) with (n + 1 * 2)%nat by lia.
  rewrite Nat.div_add by lia. lia.
Qed.

Lemma middle_node_loop_spec st k slow fast ns_s ns_f (i : nat) :
  lseg (heap st) slow ns_s None -> lseg (heap st) fast ns_f None ->
  ns_f = drop i ns_s -> (length ns_f < 2 * k)%nat ->
  middle_node_loop k slow fast st =
  (Return (entry (drop (length ns_f / 2) ns_s) None), st).
Proof.
  revert slow fast ns_s ns_f i.
  induction k as [|k IH]; intros slow fast ns_s ns_f i Hs Hf Hdrop Hk; [lia|].
  cbn [middle_node_loop]. unfold bind at 1.
  rewrite (fast_can_advance_spec st fast ns_f Hf).
  destruct ns_f as [|[l1 v1] [|[l2 v2] ns_f]].
  - change (length [] / 2)%nat with 0%nat.
    by rewrite drop_0, <- (lseg_entry _ _ _ _ Hs).
  - change (length [(l1, v1)] / 2)%nat with 0%nat.
    by rewrite drop_0, <- (lseg_entry _ _ _ _ Hs).
  - cbn [length] in *. rewrite div2_SS.
    destruct ns_s as [|[ls vs] ns_s]; [by rewrite drop_nil in Hdrop|].
    simpl in Hs, Hf.
    destruct Hs as (-> & nxs & Hls & Hs).
    destruct Hf as (-> & nx1 & Hl1 & -> & nx2 & Hl2 & Hf).
    mrun. rewrite (IH nxs nx2 ns_s ns_f (S i)); try done.
    + apply (f_equal (drop 2)) in Hdrop. simpl in Hdrop.
      rewrite drop_0 in Hdrop. rewrite Hdrop.
      rewrite drop_drop. replace (i + 2)%nat with (S (S i)) by lia. done.
    + lia.
Qed.

Lemma middle_node_spec st ns :
  repr st ns ->
  middle_node st = (Return (fst <$> ns !! (length ns / 2)%nat), st).
Proof.
  intros (Hs & _ & _). unfold middle_node. mrun.
  rewrite (middle_node_loop_spec st _ (head st) (head st) ns ns 0);
    try done.
  - by rewrite entry_drop.
  - pose proof (lseg_length _ _ _ Hs). lia.
Qed.

Lemma has_cycle_loop_spec st k slow fast ns_s ns_f (i : nat) :
  lseg (heap st) slow ns_s None -> lseg (heap st) fast ns_f None ->
  ns_f = drop i ns_s -> (length ns_f < 2 * k)%nat ->
  has_cycle_loop k slow fast st = (Return false, st).
Proof.
  revert slow fast ns_s ns_f i.
  induction k as [|k IH]; intros slow fast ns_s ns_f i Hs Hf Hdrop Hk; [lia|].
  cbn [has_cycle_loop]. unfold bind at 1.
  rewrite (fast_can_advance_spec st fast ns_f Hf).
  destruct ns_f as [|[l1 v1] [|[l2 v2] ns_f]]; [done | done |].
  cbn [length] in *.
  destruct ns_s as [|[ls vs] ns_s]; [by rewrite drop_nil in Hdrop|].
  pose proof (lseg_NoDup _ _ _ Hs) as Hnd.
  assert (ns_f = drop (S i) ns_s) as Hdrop'.
  { apply (f_equal (drop 2)) in Hdrop. simpl in Hdrop.
    rewrite drop_0 in Hdrop. rewrite Hdrop.
    rewrite drop_drop. replace (i + 2)%nat with (S (S i)) by lia. done. }
  assert (ns_s <> []) as Hne.
  { intros ->. destruct i as [|i]; simpl in Hdrop; [done|].
    by rewrite drop_nil in Hdrop. }
  simpl in Hs, Hf.
  destruct Hs as (-> & nxs & Hls & Hs).
  destruct Hf as (-> & nx1 & Hl1 & -> & nx2 & Hl2 & Hf).
  mrun. rewrite decide_False.
  - apply (IH nxs nx2 ns_s ns_f (S i)); try done. lia.
  - rewrite (lseg_entry _ _ _ _ Hs), (lseg_entry _ _ _ _ Hf), Hdrop'.
    rewrite entry_drop. destruct ns_s as [|[l0 v0] ns_s]; [done|].
    simpl. destruct (ns_s !! i) as [[l' v']|] eqn:E; [|done]. simpl.
    intros [= ->]. simpl in Hnd. apply NoDup_cons in Hnd as (_ & Hnd).
    apply NoDup_cons in Hnd as (Hnin & _). apply Hnin.
    apply list_elem_of_lookup. exists i. by rewrite list_lookup_fmap, E.
Qed.

Lemma has_cycle_spec st ns : repr st ns -> has_cycle st = (Return false, st).
Proof.
  intros (Hs & _ & _). unfold has_cycle. mrun.
  apply (has_cycle_loop_spec st _ (head st) (head st) ns ns 0); try done.
  pose proof (lseg_length _ _ _ Hs). lia.
Qed.

(** ** [nth_from_end] *)

Lemma nth_lead_loop_spec st p ns k :
  lseg (heap st) p ns None -> (k <= length ns)%nat ->
  nth_lead_loop k p st = (Return (entry (drop k ns) None), st).
Proof.
  revert p ns. induction k as [|k IH]; intros p ns Hs Hk.
  - simpl. rewrite drop_0. by rewrite <- (lseg_entry _ _ _ _ Hs).
  - destruct ns as [|[l v] ns]; simpl in Hk; [lia|].
    destruct Hs as (-> & nx & Hl & Hs). simpl. mrun.
    apply IH; [done | lia].
Qed.

Lemma nth_follow_loop_spec st k lead follow ns_l ns_f :
  lseg (heap st) lead ns_l None -> lseg (heap st) follow ns_f None ->
  (length ns_l <= length ns_f)%nat -> (length ns_l < k)%nat ->
  nth_follow_loop k lead follow st =
  (Return (entry (drop (length ns_l) ns_f) None), st).
Proof.
  revert k lead follow ns_f. induction ns_l as [|[l v] ns_l IH];
    intros [|k] lead follow ns_f Hl Hf Hle Hk; cbn [length] in *; try lia.
  - simpl in Hl. subst lead. simpl.
    by rewrite drop_0, <- (lseg_entry _ _ _ _ Hf).
  - destruct ns_f as [|[lf vf] ns_f]; cbn [length] in Hle; [lia|].
    simpl in Hl, Hf.
    destruct Hl as (-> & nxl & Hll & Hl).
    destruct Hf as (-> & nxf & Hlf & Hf).
    simpl. mrun. apply IH; try done; lia.
Qed.

Lemma nth_from_end_spec st ns n l v :
  repr st ns -> 1 <= n <= _size st ->
  ns !! Z.to_nat (_size st - n) = Some (l, v) ->
  nth_from_end n st = (Return v, st).
Proof.
  intros (Hs & _ & Hsz) Hn Hk. unfold nth_from_end. mrun.
  rewrite (nth_lead_loop_spec st (head st) ns) by (done || lia).
  assert (lseg (heap st) (entry (drop (Z.to_nat n) ns) None)
            (drop (Z.to_nat n) ns) None) as Hlead.
  { pose proof Hs as Hs2. rewrite <- (take_drop (Z.to_nat n) ns) in Hs2.
    apply lseg_app in Hs2 as (m & _ & Hm).
    by rewrite <- (lseg_entry _ _ _ _ Hm). }
  pose proof (lseg_length _ _ _ Hs) as Hlen.
  rewrite (nth_follow_loop_spec st _ _ _ _ ns Hlead Hs);
    rewrite ?length_drop; try lia.
  replace (length ns - Z.to_nat n)%nat with (Z.to_nat (_size st - n)) by lia.
  rewrite (drop_S _ _ _ Hk). cbn [entry].
  destruct (lseg_split _ _ _ _ _ _ Hs Hk) as (nx & Hl & _). by mrun.
Qed.

Lemma nth_from_end_raise_value st n :
  n < 1 -> nth_from_end n st = (Raise ValueError, st).
Proof. intros Hn. unfold nth_from_end. by mrun. Qed.

Lemma nth_from_end_raise_index st n :
  1 <= n -> _size st < n -> nth_from_end n st = (Raise IndexError, st).
Proof. intros H1 Hn. unfold nth_from_end. by mrun. Qed.

(** ** [remove_duplicates] *)

Lemma remove_duplicates_loop_spec st k seen prev kept rest :
  repr st (kept ++ rest) -> prev = last (kept.*1) ->
  (kept = [] -> seen = ∅) -> (length rest < k)%nat ->
  exists st',
    remove_duplicates_loop k seen prev (entry rest None) st =
      (Return tt, st') /\
    repr st' (kept ++ dedup_nodes seen rest).
Proof.
  revert st k seen prev kept. induction rest as [|[l x] rest IH];
    intros st [|k] seen prev kept Hr Hprev Hseen Hk; cbn [length] in Hk;
    try lia.
  - exists st. done.
  - cbn [remove_duplicates_loop entry dedup_nodes].
    destruct (decide (x ∈ seen)) as [Hin|Hnin].
    + destruct kept as [|[pl pv] kept _] using rev_ind.
      { rewrite Hseen in Hin by done. by apply not_elem_of_empty in Hin. }
      rewrite last_snoc_fst in Hprev. subst prev.
      rewrite <- app_assoc in Hr. cbn [app] in Hr.
      destruct (unlink_repr _ _ _ _ _ _ _ Hr)
        as (nx & Hpl & Hl & Hnx & Htl & Hr').
      set (t' := if decide (rest = []) then Some pl else tail st).
      specialize (Hr' t' eq_refl).
      destruct (IH _ k seen (Some pl) (kept ++ [(pl, pv)])
                  ltac:(by rewrite <- app_assoc) ltac:(by rewrite last_snoc_fst)
                  ltac:(by intros ?%app_nil_r_inv) ltac:(lia))
        as (st' & Hrun & Hres).
      exists st'. split; [|done]. rewrite <- Hrun. subst nx. mrun.
      destruct (decide (Some l = tail st)) as [He|He]; mrun;
        subst t'; [rewrite decide_True | rewrite decide_False]; try done.
      * by apply Htl.
      * intros Hnil. by apply He, eq_sym, Htl.
    + pose proof Hr as (Hs & _ & _).
      apply lseg_app in Hs as (m & _ & Hs). simpl in Hs.
      destruct Hs as (-> & nx & Hl & Hs).
      destruct (IH st k ({[x]} ∪ seen) (Some l) (kept ++ [(l, x)]))
        as (st' & Hrun & Hres).
      * by rewrite <- app_assoc.
      * by rewrite last_snoc_fst.
      * intros Hnil. by destruct kept.
      * lia.
      * exists st'. rewrite <- app_assoc in Hres. split; [|done].
        rewrite <- Hrun, <- (lseg_entry _ _ _ _ Hs). by mrun.
Qed.

Lemma remove_duplicates_spec st ns :
  repr st ns ->
  exists st',
    remove_duplicates st = (Return tt, st') /\ repr st' (dedup_nodes ∅ ns).
Proof.
  intros Hr. pose proof Hr as (Hs & _ & _).
  pose proof (lseg_length _ _ _ Hs) as Hlen.
  unfold remove_duplicates. mrun. rewrite (lseg_entry _ _ _ _ Hs).
  apply (remove_duplicates_loop_spec st _ ∅ None [] ns); try done. lia.
Qed.

(** ** The structural invariant, as the specification words it *)

Lemma lseg_succ_steps h p ns k :
  lseg h p ns None -> (k <= length ns)%nat ->
  succ_steps h k p = entry (drop k ns) None.
Proof.
  revert p ns. induction k as [|k IH]; intros p ns Hs Hk.
  - rewrite drop_0. simpl. by apply (lseg_entry h).
  - destruct ns as [|[l v] ns]; cbn [length] in Hk; [lia|].
    destruct Hs as (-> & nx & Hl & Hs). simpl. rewrite Hl. simpl.
    apply IH; [done | lia].
Qed.

Lemma succ_steps_lseg h p k t :
  succ_steps h k p = Some t ->
  exists ns, length ns = k /\ lseg h p ns (Some t).
Proof.
  revert p. induction k as [|k IH]; intros p Hk; simpl in Hk.
  - exists []. by subst p.
  - destruct p as [l|]; [|done].
    destruct (h !! l) as [[v nx]|] eqn:Hl; [|done]. simpl in Hk.
    destruct (IH _ Hk) as (ns & Hlen & Hs).
    exists ((l, v) :: ns). split; [by rewrite <- Hlen|].
    simpl. split; [done|]. by exists nx.
Qed.

Lemma repr_invariant st ns : repr st ns -> invariant st.
Proof.
  intros (Hs & Ht & Hsz). split; [|split].
  - rewrite (lseg_entry _ _ _ _ Hs), Hsz.
    destruct ns as [|[l v] ns]; cbn [length entry]; split; (done || lia).
  - rewrite (lseg_entry _ _ _ _ Hs), Ht.
    destruct ns as [|[l v] ns _] using rev_ind; [done|].
    rewrite last_snoc_fst. split; [|done].
    by destruct ns as [|[l' v'] ns].
  - intros t Htl. rewrite Ht in Htl.
    destruct ns as [|[l v] ns _] using rev_ind; [done|].
    rewrite last_snoc_fst in Htl. injection Htl as ->.
    rewrite length_app in Hsz. cbn [length] in Hsz.
    pose proof Hs as Hs0. apply lseg_snoc_inv in Hs as (Hl & Hs & _).
    split; [|by exists v]. split; [lia|].
    rewrite (lseg_succ_steps _ _ _ _ Hs0) by (rewrite length_app; lia).
    replace (Z.to_nat (_size st - 1)) with (length ns) by lia.
    by rewrite drop_app_length.
Qed.

Lemma invariant_repr st : invariant st -> exists ns, repr st ns.
Proof.
  intros (H1 & H2 & H3). destruct (tail st) as [t|] eqn:Ht.
  - destruct (H3 t eq_refl) as ((Hk & Hsteps) & v & Hl).
    destruct (succ_steps_lseg _ _ _ _ Hsteps) as (ns & Hlen & Hs).
    exists (ns ++ [(t, v)]). split; [|split].
    + eapply lseg_join; [done | done | done].
    + by rewrite last_snoc_fst.
    + rewrite length_app. cbn [length]. lia.
  - exists []. assert (head st = None) as Hh by (by apply H2).
    split; [done|]. split; [done|]. simpl. by apply H1.
Qed.

(** The chain behind a well-formed list whose contents are [s]. *)
Lemma invariant_to_list st (s : list V) :
  invariant st -> to_list st = (Return s, st) ->
  exists ns, repr st ns /\ ns.*2 = s.
Proof.
  intros Hinv Hl. destruct (invariant_repr st Hinv) as (ns & Hr).
  exists ns. split; [done|]. rewrite (to_list_spec st ns Hr) in Hl.
  by injection Hl.
Qed.

Lemma repr_length_Z st ns (s : list V) :
  repr st ns -> ns.*2 = s -> _size st = Z.of_nat (length s).
Proof. intros (_ & _ & Hsz) <-. by rewrite length_fmap. Qed.

Lemma repr_succ_steps st ns k :
  repr st ns -> (k <= length ns)%nat ->
  succ_steps (heap st) k (head st) = fst <$> ns !! k.
Proof.
  intros (Hs & _) Hk. rewrite (lseg_succ_steps _ _ _ _ Hs Hk).
  apply entry_drop.
Qed.

(** ** What [remove_duplicates] keeps *)

Lemma dedup_nodes_elem seen ns (y : V) :
  y ∈ (dedup_nodes seen ns).*2 <-> y ∈ ns.*2 /\ y ∉ seen.
Proof.
  revert seen. induction ns as [|[l x] ns IH]; intros seen; simpl.
  - split; [intros Hin | intros [Hin _]]; by apply elem_of_nil in Hin.
  - destruct (decide (x ∈ seen)) as [Hx|Hx]; simpl.
    + rewrite IH, elem_of_cons. split; [naive_solver|].
      intros [[->|Hin] Hn]; [done | by split].
    + rewrite !elem_of_cons, IH. split.
      * intros [->|[Hin Hn]]; [by split; [left|] |].
        split; [by right | set_solver].
      * intros [[->|Hin] Hn]; [by left|].
        destruct (decide (y = x)) as [->|Hne]; [by left|].
        right. split; [done | set_solver].
Qed.

Lemma dedup_nodes_NoDup seen ns : NoDup (dedup_nodes seen ns).*2.
Proof.
  revert seen. induction ns as [|[l x] ns IH]; intros seen; simpl.
  - constructor.
  - destruct (decide (x ∈ seen)) as [Hx|Hx]; simpl; [done|].
    constructor; [|done]. rewrite dedup_nodes_elem. set_solver.
Qed.

Lemma dedup_nodes_values (pre : list V) seen ns :
  (forall y, y ∈ seen <-> y ∈ pre) ->
  (dedup_nodes seen ns).*2 =
  omap (fun i => (pre ++ ns.*2) !! i)
       (filter (is_first_occurrence (pre ++ ns.*2))
               (seq (length pre) (length ns))).
Proof.
  revert pre seen. induction ns as [|[l x] ns IH]; intros pre seen Hseen.
  - done.
  - cbn [dedup_nodes length seq fmap list_fmap snd].
    assert ((pre ++ x :: ns.*2) !! length pre = Some x) as Hlk
      by (by rewrite list_lookup_middle).
    assert (is_first_occurrence (pre ++ x :: ns.*2) (length pre) <-> x ∉ seen)
      as Hfirst.
    { unfold is_first_occurrence. rewrite Hlk, take_app_length.
      by rewrite Hseen. }
    rewrite filter_cons.
    specialize (IH (pre ++ [x])).
    rewrite <- app_assoc, length_app in IH. cbn [app length] in IH.
    rewrite Nat.add_1_r in IH.
    destruct (decide (x ∈ seen)) as [Hx|Hx].
    + rewrite decide_False by (rewrite Hfirst; tauto).
      apply IH. intros y. rewrite elem_of_app, list_elem_of_singleton.
      rewrite <- Hseen. split; [tauto | by intros [?| ->]].
    + rewrite decide_True by (by rewrite Hfirst).
      cbn [omap list_omap]. rewrite Hlk. cbn [fmap list_fmap snd].
      f_equal. apply IH. intros y.
      rewrite elem_of_app, list_elem_of_singleton, <- Hseen. set_solver.
Qed.

Lemma dedup_nodes_first_occurrences ns :
  (dedup_nodes ∅ ns).*2 = first_occurrences (ns.*2).
Proof.
  rewrite (dedup_nodes_values [] ∅ ns).
  - unfold first_occurrences. by rewrite length_fmap.
  - intros y. split; [intros Hin | intros Hin].
    + by apply not_elem_of_empty in Hin.
    + by apply elem_of_nil in Hin.
Qed.

(** ** Every call keeps the representation *)

Lemma run_ignore {A} (m : M A) st (a : A) st' :
  m st = (Return a, st') -> ignore m st = (Return tt, st').
Proof. intros Hm. unfold ignore, bind. by rewrite Hm. Qed.

Lemma run_ignore_raise {A} (m : M A) st e st' :
  m st = (Raise e, st') -> ignore m st = (Raise e, st').
Proof. intros Hm. unfold ignore, bind. by rewrite Hm. Qed.

Lemma run_call_spec st ns (c : call) :
  repr st ns ->
  exists ns',
    repr (run_call c st).2 ns' /\
    ((run_call c st).1 = Return tt \/
     run_call c st = (Raise IndexError, st)).
Proof.
  intros Hr. pose proof Hr as (_ & _ & Hsz).
  destruct c as [v|v|i v|i|i v|i|v| | | | | |vs]; cbn [run_call].
  - destruct (prepend_spec st ns v Hr) as (l & st' & -> & Hr'). eauto.
  - destruct (append_spec st ns v Hr) as (l & st' & -> & Hr'). eauto.
  - destruct (decide (0 <= i <= _size st)) as [Hi|Hi].
    + destruct (insert_spec st ns i v Hr Hi) as (l & st' & -> & Hr'). eauto.
    + rewrite insert_raise by lia. eauto.
  - destruct (decide (0 <= i < _size st)) as [Hi|Hi].
    + destruct (lookup_lt_is_Some_2 ns (Z.to_nat i)) as [[l v] Hk]; [lia|].
      rewrite (run_ignore _ _ _ _ (get_spec st ns i l v Hr ltac:(lia) Hk)).
      eauto.
    + rewrite (run_ignore_raise _ _ _ _ (get_raise st i ltac:(lia))). eauto.
  - destruct (decide (0 <= i < _size st)) as [Hi|Hi].
    + destruct (lookup_lt_is_Some_2 ns (Z.to_nat i)) as [[l x] Hk]; [lia|].
      destruct (set_spec st ns i l x v Hr ltac:(lia) Hk) as (st' & -> & Hr').
      eauto.
    + rewrite set_raise by lia. eauto.
  - destruct (decide (0 <= i < _size st)) as [Hi|Hi].
    + destruct (lookup_lt_is_Some_2 ns (Z.to_nat i)) as [[l x] Hk]; [lia|].
      destruct (remove_at_spec st ns i l x Hr ltac:(lia) Hk)
        as (st' & Hrun & Hr').
      rewrite (run_ignore _ _ _ _ Hrun). eauto.
    + rewrite (run_ignore_raise _ _ _ _ (remove_at_raise st i ltac:(lia))).
      eauto.
  - pose proof (remove_spec st ns v Hr) as Hrm.
    destruct (first_with v ns) as [[j n]|].
    + destruct Hrm as (st' & Hrun & Hr').
      rewrite (run_ignore _ _ _ _ Hrun). eauto.
    + rewrite (run_ignore _ _ _ _ Hrm). eauto.
  - destruct ns as [|[l v] ns].
    + rewrite (run_ignore_raise _ _ _ _ (pop_left_raise st Hsz)). eauto.
    + destruct (pop_left_spec st l v ns Hr) as (st' & Hrun & Hr').
      rewrite (run_ignore _ _ _ _ Hrun). eauto.
  - destruct ns as [|[l v] ns _] using rev_ind.
    + rewrite (run_ignore_raise _ _ _ _ (pop_raise st Hsz)). eauto.
    + destruct (pop_spec st ns l v Hr) as (st' & Hrun & Hr').
      rewrite (run_ignore _ _ _ _ Hrun). eauto.
  - destruct (reverse_spec st ns Hr) as (st' & -> & Hr'). eauto.
  - destruct (remove_duplicates_spec st ns Hr) as (st' & -> & Hr'). eauto.
  - destruct (clear_spec st) as (st' & -> & Hr'). eauto.
  - destruct (extend_spec st ns vs Hr) as (ns' & st' & -> & Hr' & _). eauto.
Qed.

Lemma run_calls_spec st ns (cs : list call) :
  repr st ns -> exists ns', repr (run_calls cs st) ns'.
Proof.
  revert st ns. induction cs as [|c cs IH]; intros st ns Hr; simpl.
  - by exists ns.
  - destruct (run_call_spec st ns c Hr) as (ns' & Hr' & _). eauto.
Qed.

(** ** From the observable list to its chain *)

Lemma repr_nil_inv st : repr st [] -> head st = None /\ tail st = None.
Proof. by intros (Hs & Ht & _). Qed.

Lemma lookup_snd ns k v :
  ns.*2 !! k = Some v -> exists l, ns !! k = Some (l, v).
Proof.
  rewrite list_lookup_fmap. destruct (ns !! k) as [[l x]|]; [|done].
  intros [= ->]. by exists l.
Qed.

Lemma repr_to_list_size st ns :
  repr st ns ->
  to_list st = (Return ns.*2, st) /\ _size st = Z.of_nat (length ns.*2) /\
  invariant st.
Proof.
  intros Hr. split; [by apply to_list_spec|]. split.
  - rewrite length_fmap. by destruct Hr as (_ & _ & ?).
  - by eapply repr_invariant.
Qed.

(** * The theorems of the specification *)

(** C1. Construction and every public operation (prepend, append, insert,
    get, set, remove_at, remove, pop_left, pop, reverse, remove_duplicates,
    clear, extend) keep the structural invariant, and such a call either
    returns or raises IndexError with the list untouched; [has_cycle]
    answers [False] on every list that satisfies the invariant, in
    particular on every list built by the constructor and public calls; and
    removing the only element leaves [head] and [tail] absent. *)
Theorem structural_invariant_preserved st (c : call)
    (iterable : option (list V)) (cs : list call) :
  invariant st ->
  (invariant (run_call c st).2 /\
   ((run_call c st).1 = Return tt \/
    run_call c st = (Raise IndexError, st))) /\
  ((__init__ iterable st).1 = Return tt /\
   invariant (__init__ iterable st).2) /\
  (invariant (built iterable cs) /\
   has_cycle (built iterable cs) = (Return false, built iterable cs)) /\
  has_cycle st = (Return false, st) /\
  (_size st = 1 ->
   (exists v st',
      pop_left st = (Return v, st') /\ head st' = None /\ tail st' = None) /\
   (exists v st',
      pop st = (Return v, st') /\ head st' = None /\ tail st' = None) /\
   (exists v st',
      remove_at 0 st = (Return v, st') /\
      head st' = None /\ tail st' = None) /\
   (exists v st',
      get 0 st = (Return v, st) /\ remove v st = (Return true, st') /\
      head st' = None /\ tail st' = None)).
Proof.
  intros Hinv. destruct (invariant_repr st Hinv) as (ns & Hr).
  split; [|split; [|split; [|split]]].
  - destruct (run_call_spec st ns c Hr) as (ns' & Hr' & Hout).
    split; [by eapply repr_invariant | done].
  - destruct (__init___spec st iterable) as (ns' & st' & -> & Hr' & _).
    split; [done | by eapply repr_invariant].
  - unfold built.
    destruct (__init___spec blank iterable) as (ns0 & st0 & -> & Hr0 & _).
    destruct (run_calls_spec st0 ns0 cs Hr0) as (ns' & Hr').
    split; [by eapply repr_invariant | by eapply has_cycle_spec].
  - by eapply has_cycle_spec.
  - intros Hone. pose proof Hr as (_ & _ & Hsz).
    destruct ns as [|[l v] [|n ns]]; cbn [length] in Hsz; try lia.
    split; [|split; [|split]].
    + destruct (pop_left_spec st l v [] Hr) as (st' & Hrun & Hr').
      exists v, st'. split; [done | by apply repr_nil_inv].
    + destruct (pop_spec st [] l v Hr) as (st' & Hrun & Hr').
      exists v, st'. split; [done | by apply repr_nil_inv].
    + destruct (remove_at_spec st [(l, v)] 0 l v Hr) as (st' & Hrun & Hr');
        [lia | done |].
      exists v, st'. split; [done | by apply repr_nil_inv].
    + pose proof (remove_spec st [(l, v)] v Hr) as Hrm.
      rewrite first_with_cons, decide_True in Hrm by done.
      destruct Hrm as (st' & Hrun & Hr').
      exists v, st'. split; [by apply (get_spec st [(l, v)] 0 l v)|].
      split; [done | by apply repr_nil_inv].
Qed.

(** C2. A failing call raises its error and leaves the list untouched:
    [get], [set], [remove_at] with an index outside [0, count), [insert]
    with an index outside [0, count], [nth_from_end] with n < 1 or
    n > count, [pop_left] and [pop] on an empty list.  This holds in every
    state of the store, well formed or not. *)
Theorem failing_call_is_no_op st (i n : Z) (v : V) :
  (i < 0 \/ _size st <= i ->
     get i st = (Raise IndexError, st) /\
     set i v st = (Raise IndexError, st) /\
     remove_at i st = (Raise IndexError, st)) /\
  (i < 0 \/ _size st < i -> insert i v st = (Raise IndexError, st)) /\
  (n < 1 -> nth_from_end n st = (Raise ValueError, st)) /\
  (1 <= n -> _size st < n -> nth_from_end n st = (Raise IndexError, st)) /\
  (n < 1 \/ _size st < n -> exists e, nth_from_end n st = (Raise e, st)) /\
  (_size st = 0 ->
     pop_left st = (Raise IndexError, st) /\
     pop st = (Raise IndexError, st)).
Proof.
  split; [|split; [|split; [|split; [|split]]]].
  - intros Hi. split; [by apply get_raise|].
    split; [by apply set_raise | by apply remove_at_raise].
  - intros Hi. by apply insert_raise.
  - intros Hn. by apply nth_from_end_raise_value.
  - intros H1 Hn. by apply nth_from_end_raise_index.
  - intros Hn. destruct (decide (n < 1)) as [Hlt|Hge].
    + exists ValueError. by apply nth_from_end_raise_value.
    + exists IndexError. apply nth_from_end_raise_index; lia.
  - intros Hz. split; [by apply pop_left_raise | by apply pop_raise].
Qed.

(** C3. On a list with contents [s] and 0 <= i < count, [remove_at i]
    returns [s[i]] and leaves [s] with position [i] deleted, the count one
    less and the invariant intact (so [tail] is the new last node: when [i]
    was the last position and not the first, the node before it); for any
    other [i] it raises IndexError. *)
Theorem remove_at_correct st (s : list V) (i : Z) :
  invariant st -> to_list st = (Return s, st) ->
  (0 <= i < _size st ->
   exists v st',
     s !! Z.to_nat i = Some v /\
     remove_at i st = (Return v, st') /\
     to_list st' = (Return (delete (Z.to_nat i) s), st') /\
     _size st' = _size st - 1 /\
     invariant st' /\
     (i = _size st - 1 -> 0 < i ->
      _node_at (i - 1) st = (Return (tail st'), st))) /\
  (i < 0 \/ _size st <= i -> remove_at i st = (Raise IndexError, st)).
Proof.
  intros Hinv Hlist.
  destruct (invariant_to_list st s Hinv Hlist) as (ns & Hr & <-).
  pose proof Hr as (_ & _ & Hsz).
  split; [|by apply remove_at_raise].
  intros Hi.
  destruct (lookup_lt_is_Some_2 ns (Z.to_nat i)) as [[l v] Hk]; [lia|].
  destruct (remove_at_spec st ns i l v Hr ltac:(lia) Hk) as (st' & Hrun & Hr').
  destruct (repr_to_list_size st' _ Hr') as (Hlist' & Hsz' & Hinv').
  exists v, st'. split; [by rewrite list_lookup_fmap, Hk|].
  split; [done|]. split; [by rewrite <- list_fmap_delete|].
  split; [|split; [done|]].
  - rewrite Hsz', Hsz, length_fmap, length_delete by eauto.
    pose proof (lookup_lt_Some _ _ _ Hk). lia.
  - intros Hlast Hpos.
    destruct (lookup_lt_is_Some_2 ns (Z.to_nat (i - 1))) as [[pl pv] Hp];
      [lia|].
    rewrite (_node_at_spec st ns (i - 1) pl pv Hr ltac:(lia) Hp).
    do 2 f_equal. destruct Hr' as (_ & -> & _).
    rewrite last_lookup, length_fmap, length_delete by eauto.
    rewrite list_lookup_fmap.
    replace (pred (length ns - 1)) with (Z.to_nat (i - 1)) by lia.
    rewrite list_lookup_delete_lt by lia. by rewrite Hp.
Qed.

(** C4. [reverse] turns the contents [s] into the reversal of [s]; the old
    tail node becomes the head and the old head node the tail; reversing
    twice gives [s] back. *)
Theorem reverse_correct st (s : list V) :
  invariant st -> to_list st = (Return s, st) ->
  exists st',
    reverse st = (Return tt, st') /\
    to_list st' = (Return (list.reverse s), st') /\
    head st' = tail st /\ tail st' = head st /\
    _size st' = _size st /\ invariant st' /\
    exists st'',
      reverse st' = (Return tt, st'') /\ to_list st'' = (Return s, st'').
Proof.
  intros Hinv Hlist.
  destruct (invariant_to_list st s Hinv Hlist) as (ns & Hr & <-).
  destruct (reverse_spec st ns Hr) as (st' & Hrun & Hr').
  destruct (reverse_spec st' _ Hr') as (st'' & Hrun' & Hr'').
  rewrite reverse_involutive in Hr''.
  exists st'. split; [done|].
  split; [by rewrite <- fmap_reverse; apply to_list_spec|].
  destruct Hr as (Hs & Ht & Hsz). pose proof Hr' as (Hs' & Ht' & Hsz').
  split; [|split; [|split; [|split]]].
  - rewrite (lseg_entry _ _ _ _ Hs'), Ht.
    destruct ns as [|[l v] ns _] using rev_ind; [done|].
    by rewrite reverse_snoc, last_snoc_fst.
  - by rewrite Ht', last_reverse_fst, (lseg_entry _ _ _ _ Hs).
  - by rewrite Hsz', Hsz, length_reverse.
  - by eapply repr_invariant.
  - exists st''. split; [done | by apply to_list_spec].
Qed.

Lemma dedup_nodes_sublist seen ns : sublist (dedup_nodes seen ns) ns.
Proof.
  revert seen. induction ns as [|[l x] ns IH]; intros seen; simpl.
  - constructor.
  - destruct (decide (x ∈ seen)); [by apply sublist_cons | by apply sublist_skip].
Qed.

(** C5. After [remove_duplicates] the contents are the first occurrences of
    the original contents in their original order: no value occurs twice,
    every value of the original still occurs, and the invariant holds, so
    [tail] is the last node that was kept. *)
Theorem remove_duplicates_correct st (s : list V) :
  invariant st -> to_list st = (Return s, st) ->
  exists st',
    remove_duplicates st = (Return tt, st') /\
    to_list st' = (Return (first_occurrences s), st') /\
    NoDup (first_occurrences s) /\
    sublist (first_occurrences s) s /\
    (forall v, v ∈ first_occurrences s <-> v ∈ s) /\
    _size st' = Z.of_nat (length (first_occurrences s)) /\
    invariant st'.
Proof.
  intros Hinv Hlist.
  destruct (invariant_to_list st s Hinv Hlist) as (ns & Hr & <-).
  destruct (remove_duplicates_spec st ns Hr) as (st' & Hrun & Hr').
  destruct (repr_to_list_size st' _ Hr') as (Hlist' & Hsz' & Hinv').
  rewrite dedup_nodes_first_occurrences in Hlist', Hsz'.
  exists st'. split; [done|]. split; [done|].
  rewrite <- dedup_nodes_first_occurrences.
  split; [apply dedup_nodes_NoDup|].
  split; [apply fmap_sublist, dedup_nodes_sublist|].
  split; [|by rewrite dedup_nodes_first_occurrences].
  intros v. rewrite dedup_nodes_elem. split; [by intros [? _]|].
  intros Hin. split; [done | apply not_elem_of_empty].
Qed.

(** C6. With 0 <= i <= count, [insert i v] puts [v] at position [i] of the
    contents ([i] = count appends), and [get i] right afterwards returns
    [v]; for any other [i] it raises IndexError. *)
Theorem insert_correct st (s : list V) (i : Z) (v : V) :
  invariant st -> to_list st = (Return s, st) ->
  (0 <= i <= _size st ->
   exists st',
     insert i v st = (Return tt, st') /\
     to_list st' =
       (Return (take (Z.to_nat i) s ++ v :: drop (Z.to_nat i) s), st') /\
     get i st' = (Return v, st') /\
     _size st' = _size st + 1 /\
     invariant st') /\
  (i < 0 \/ _size st < i -> insert i v st = (Raise IndexError, st)).
Proof.
  intros Hinv Hlist.
  destruct (invariant_to_list st s Hinv Hlist) as (ns & Hr & <-).
  pose proof Hr as (_ & _ & Hsz).
  split; [|by apply insert_raise].
  intros Hi. destruct (insert_spec st ns i v Hr Hi) as (l & st' & Hrun & Hr').
  destruct (repr_to_list_size st' _ Hr') as (Hlist' & Hsz' & Hinv').
  rewrite fmap_app, fmap_cons, fmap_take, fmap_drop in Hlist'.
  exists st'. split; [done|]. split; [done|].
  split; [|split; [|done]].
  - apply (get_spec st' _ i l v Hr'); [lia|].
    rewrite list_lookup_middle; [done|]. rewrite length_take. lia.
  - rewrite Hsz', Hsz, length_fmap, length_app. cbn [length].
    rewrite length_take, length_drop. lia.
Qed.

(** C7. [nth_from_end n] raises ValueError when n < 1 and IndexError when
    n > count; otherwise it returns the element at position count - n; so
    n = 1 gives the last element and n = count the first. *)
Theorem nth_from_end_correct st (s : list V) (n : Z) :
  invariant st -> to_list st = (Return s, st) ->
  (n < 1 -> nth_from_end n st = (Raise ValueError, st)) /\
  (_size st < n -> nth_from_end n st = (Raise IndexError, st)) /\
  (1 <= n <= _size st ->
   exists v,
     s !! Z.to_nat (_size st - n) = Some v /\
     nth_from_end n st = (Return v, st)) /\
  (1 <= _size st ->
   exists a b,
     last s = Some a /\ nth_from_end 1 st = (Return a, st) /\
     s !! 0%nat = Some b /\ nth_from_end (_size st) st = (Return b, st)).
Proof.
  intros Hinv Hlist.
  destruct (invariant_to_list st s Hinv Hlist) as (ns & Hr & <-).
  pose proof Hr as (_ & _ & Hsz).
  assert (forall m, 1 <= m <= _size st ->
            exists v, ns.*2 !! Z.to_nat (_size st - m) = Some v /\
                      nth_from_end m st = (Return v, st)) as Hnth.
  { intros m Hm.
    destruct (lookup_lt_is_Some_2 ns (Z.to_nat (_size st - m)))
      as [[l v] Hk]; [lia|].
    exists v. split; [by rewrite list_lookup_fmap, Hk|].
    by apply (nth_from_end_spec st ns m l v). }
  split; [by apply nth_from_end_raise_value|].
  split; [intros Hn; apply nth_from_end_raise_index; lia|].
  split; [by apply Hnth|].
  intros Hone.
  destruct (Hnth 1 ltac:(lia)) as (a & Ha & Hra).
  destruct (Hnth (_size st) ltac:(lia)) as (b & Hb & Hrb).
  exists a, b. split; [|split; [done|split; [|done]]].
  - rewrite last_lookup, length_fmap.
    by replace (pred (length ns)) with (Z.to_nat (_size st - 1)) by lia.
  - by replace (Z.to_nat (_size st - _size st)) with 0%nat in Hb by lia.
Qed.

(** C8. [middle_node] returns [None] on an empty list; otherwise it returns
    the node at position count / 2 (integer division), which for an even
    count is the second of the two middle nodes. *)
Theorem middle_node_correct st (s : list V) :
  invariant st -> to_list st = (Return s, st) ->
  (_size st = 0 -> middle_node st = (Return None, st)) /\
  (0 < _size st ->
   exists l v,
     middle_node st = (Return (Some l), st) /\
     succ_steps (heap st) (Z.to_nat (_size st / 2)) (head st) = Some l /\
     s !! Z.to_nat (_size st / 2) = Some v /\
     attr_value (Some l) st = (Return v, st)).
Proof.
  intros Hinv Hlist.
  destruct (invariant_to_list st s Hinv Hlist) as (ns & Hr & <-).
  pose proof Hr as (Hs & _ & Hsz).
  pose proof (middle_node_spec st ns Hr) as Hmid.
  assert (Z.to_nat (_size st / 2) = (length ns / 2)%nat) as Hdiv.
  { rewrite Hsz. change 2 with (Z.of_nat 2).
    by rewrite <- Nat2Z.inj_div, Nat2Z.id. }
  split.
  - intros Hz. destruct ns; [done | cbn [length] in Hsz; lia].
  - intros Hpos.
    assert (length ns / 2 < length ns)%nat as Hlt
      by (apply Nat.div_lt; lia).
    destruct (lookup_lt_is_Some_2 ns (length ns / 2)%nat) as [[l v] Hk];
      [done|].
    rewrite Hk in Hmid. exists l, v. split; [done|]. rewrite Hdiv.
    split; [|split].
    + rewrite (repr_succ_steps st ns) by (done || lia). by rewrite Hk.
    + by rewrite list_lookup_fmap, Hk.
    + destruct (lseg_split _ _ _ _ _ _ Hs Hk) as (nx & Hl & _). by mrun.
Qed.

(** C9. [pop_left] and [pop] raise IndexError exactly when count is 0; on a
    non-empty list [pop_left] returns the first element and [pop] the last,
    each leaving the rest of the contents, the count one less and the
    invariant intact. *)
Theorem pop_correct st (s : list V) :
  invariant st -> to_list st = (Return s, st) ->
  (_size st = 0 ->
     pop_left st = (Raise IndexError, st) /\
     pop st = (Raise IndexError, st)) /\
  (_size st <> 0 ->
   (exists v s' st',
      s = v :: s' /\ pop_left st = (Return v, st') /\
      to_list st' = (Return s', st') /\
      _size st' = _size st - 1 /\ invariant st') /\
   (exists v s' st',
      s = s' ++ [v] /\ pop st = (Return v, st') /\
      to_list st' = (Return s', st') /\
      _size st' = _size st - 1 /\ invariant st')).
Proof.
  intros Hinv Hlist.
  destruct (invariant_to_list st s Hinv Hlist) as (ns & Hr & <-).
  pose proof Hr as (_ & _ & Hsz).
  split; [intros Hz; split; [by apply pop_left_raise | by apply pop_raise]|].
  intros Hnz. split.
  - destruct ns as [|[l v] ns]; [done|].
    destruct (pop_left_spec st l v ns Hr) as (st' & Hrun & Hr').
    destruct (repr_to_list_size st' _ Hr') as (Hlist' & Hsz' & Hinv').
    exists v, (ns.*2), st'. repeat (split; [done|]).
    split; [|done]. rewrite Hsz', Hsz, length_fmap. cbn [length]. lia.
  - destruct ns as [|[l v] ns _] using rev_ind; [done|].
    destruct (pop_spec st ns l v Hr) as (st' & Hrun & Hr').
    destruct (repr_to_list_size st' _ Hr') as (Hlist' & Hsz' & Hinv').
    exists v, (ns.*2), st'. split; [by rewrite fmap_app|].
    repeat (split; [done|]).
    split; [|done]. rewrite Hsz', Hsz, length_fmap, length_app.
    cbn [length]. lia.
Qed.

Lemma first_with_Some v ns j l x :
  first_with v ns = Some (j, (l, x)) ->
  x = v /\ ns !! j = Some (l, v) /\
  forall j', (j' < j)%nat -> ns.*2 !! j' <> Some v.
Proof.
  unfold first_with. intros (Hk & Hx & Hmin)%list_find_Some.
  simpl in Hx. subst x. split; [done|]. split; [done|].
  intros j' Hlt Hj'. destruct (lookup_snd _ _ _ Hj') as (l' & Hl').
  by apply (Hmin j' (l', v)).
Qed.

Lemma first_with_None v ns : first_with v ns = None -> v ∉ ns.*2.
Proof.
  unfold first_with. intros Hnone%list_find_None Hin.
  apply list_elem_of_fmap in Hin as ([l x] & -> & Hin).
  rewrite Forall_forall in Hnone. by apply (Hnone _ Hin).
Qed.

(** C10. The three searches agree and look for the first occurrence:
    [index_of v] is the smallest index that holds [v], or -1 when [v] does
    not occur; [v in list] holds exactly when that result is not -1, which
    is exactly when [find v] returns a node; and that node is the one at
    the returned index, so the first node whose value equals [v]. *)
Theorem search_correct st (s : list V) (v : V) :
  invariant st -> to_list st = (Return s, st) ->
  exists (r : Z) (p : option loc),
    index_of v st = (Return r, st) /\
    __contains__ v st = (Return (bool_decide (r <> -1)), st) /\
    find v st = (Return p, st) /\
    (v ∈ s ->
     0 <= r /\ s !! Z.to_nat r = Some v /\
     (forall j, (j < Z.to_nat r)%nat -> s !! j <> Some v)) /\
    (v ∉ s -> r = -1) /\
    (r <> -1 <-> v ∈ s) /\
    (p <> None <-> r <> -1) /\
    (forall l, p = Some l ->
       succ_steps (heap st) (Z.to_nat r) (head st) = Some l /\
       attr_value (Some l) st = (Return v, st)).
Proof.
  intros Hinv Hlist.
  destruct (invariant_to_list st s Hinv Hlist) as (ns & Hr & <-).
  pose proof Hr as (Hs & _ & Hsz).
  pose proof (index_of_spec st ns v Hr) as Hidx.
  pose proof (find_spec st ns v Hr) as Hfind.
  pose proof (__contains___spec st ns v Hr) as Hcont.
  destruct (first_with v ns) as [[j [l x]]|] eqn:Hfw.
  - destruct (first_with_Some _ _ _ _ _ Hfw) as (-> & Hk & Hmin).
    assert (v ∈ ns.*2) as Hin.
    { apply list_elem_of_lookup. exists j. by rewrite list_lookup_fmap, Hk. }
    exists (Z.of_nat j), (Some l). rewrite Nat2Z.id.
    split; [done|]. split.
    { rewrite Hcont. do 2 f_equal.
      rewrite !bool_decide_eq_true_2; [done | lia | by eexists]. }
    split; [done|]. split.
    { intros _. split; [lia|]. split; [|done].
      by rewrite list_lookup_fmap, Hk. }
    split; [done|]. split; [split; [done | lia]|].
    split; [split; [lia | done]|].
    intros l' [= <-]. split.
    + rewrite (repr_succ_steps st ns) by
        (done || (apply Nat.lt_le_incl; by eapply lookup_lt_Some)).
      by rewrite Hk.
    + destruct (lseg_split _ _ _ _ _ _ Hs Hk) as (nx & Hl & _). by mrun.
  - pose proof (first_with_None _ _ Hfw) as Hnin.
    exists (-1), None. split; [done|]. split.
    { rewrite Hcont. reflexivity. }
    split; [done|]. split; [done|]. split; [done|].
    split; [split; [done | by intros ?]|].
    split; [done | by intros l ?].
Qed.

End Verification.

(** * The theorems on concrete lists *)

Lemma structural_invariant_preserved_witness :
  invariant sample /\ _size single = 1 /\
  invariant (run_call call_remove_duplicates sample).2 /\
  has_cycle sample = (Return false, sample) /\
  invariant (built (Some [10; 20; 10]) [call_reverse; call_pop]) /\
  exists st', pop single = (Return 7, st') /\ head st' = None /\ tail st' = None.
Proof.
  assert (invariant sample) as Hinv by invariant_by_evaluation.
  assert (invariant single) as Hinv1 by invariant_by_evaluation.
  assert (_size single = 1) as Hone by (vm_compute; reflexivity).
  destruct (structural_invariant_preserved sample call_remove_duplicates
              (Some [10; 20; 10]) [call_reverse; call_pop] Hinv)
    as ((Hcall & _) & _ & (Hbuilt & _) & Hcycle & _).
  destruct (structural_invariant_preserved single call_pop None [] Hinv1)
    as (_ & _ & _ & _ & Hsole).
  destruct (Hsole Hone) as (_ & (v & st' & Hpop & Hh & Ht) & _).
  repeat (split; [assumption|]).
  exists st'. split; [|split; assumption].
  rewrite Hpop. f_equal.
  assert (pop single = (Return 7, (pop single).2)) as Hrun
    by (vm_compute; reflexivity).
  rewrite Hpop in Hrun. injection Hrun as ->. reflexivity.
Defined.

Lemma failing_call_is_no_op_witness :
  (5 < 0 \/ _size sample <= 5) /\ 0 < 1 /\ _size (@blank Z) = 0 /\
  get 5 sample = (Raise IndexError, sample) /\
  nth_from_end 0 sample = (Raise ValueError, sample) /\
  pop blank = (Raise IndexError, @blank Z).
Proof.
  assert (5 < 0 \/ _size sample <= 5) as Hi
    by (right; vm_compute; discriminate).
  assert (0 < 1) as Hn by lia.
  assert (_size (@blank Z) = 0) as Hz by reflexivity.
  destruct (failing_call_is_no_op sample 5 0 0)
    as (Hidx & _ & Hval & _ & _ & _).
  destruct (failing_call_is_no_op (@blank Z) 0 0 0)
    as (_ & _ & _ & _ & _ & Hpop).
  destruct (Hidx Hi) as (Hget & _). destruct (Hpop Hz) as (_ & Hp).
  repeat (split; [assumption|]). split; [exact (Hval Hn) | exact Hp].
Defined.

Lemma remove_at_correct_witness :
  invariant sample /\ to_list sample = (Return [10; 20; 10], sample) /\
  0 <= 1 < _size sample /\
  exists st',
    remove_at 1 sample = (Return 20, st') /\
    to_list st' = (Return [10; 10], st') /\ invariant st'.
Proof.
  assert (invariant sample) as Hinv by invariant_by_evaluation.
  assert (to_list sample = (Return [10; 20; 10], sample)) as Hlist
    by (vm_compute; reflexivity).
  assert (0 <= 1 < _size sample) as Hi
    by (split; vm_compute; [discriminate | reflexivity]).
  destruct (remove_at_correct sample [10; 20; 10] 1 Hinv Hlist) as (Hok & _).
  destruct (Hok Hi) as (v & st' & Hv & Hrun & Hlist' & _ & Hinv' & _).
  injection Hv as <-.
  repeat (split; [assumption|]). exists st'.
  split; [exact Hrun | split; [exact Hlist' | exact Hinv']].
Defined.

Lemma reverse_correct_witness :
  invariant sample /\ to_list sample = (Return [10; 20; 10], sample) /\
  exists st',
    reverse sample = (Return tt, st') /\
    to_list st' = (Return [10; 20; 10], st') /\
    head st' = tail sample /\ tail st' = head sample.
Proof.
  assert (invariant sample) as Hinv by invariant_by_evaluation.
  assert (to_list sample = (Return [10; 20; 10], sample)) as Hlist
    by (vm_compute; reflexivity).
  destruct (reverse_correct sample [10; 20; 10] Hinv Hlist)
    as (st' & Hrun & Hlist' & Hh & Ht & _).
  repeat (split; [assumption|]). exists st'.
  split; [exact Hrun | split; [exact Hlist' | split; [exact Hh | exact Ht]]].
Defined.

Lemma remove_duplicates_correct_witness :
  invariant sample /\ to_list sample = (Return [10; 20; 10], sample) /\
  exists st',
    remove_duplicates sample = (Return tt, st') /\
    to_list st' = (Return [10; 20], st') /\ invariant st'.
Proof.
  assert (invariant sample) as Hinv by invariant_by_evaluation.
  assert (to_list sample = (Return [10; 20; 10], sample)) as Hlist
    by (vm_compute; reflexivity).
  destruct (remove_duplicates_correct sample [10; 20; 10] Hinv Hlist)
    as (st' & Hrun & Hlist' & _ & _ & _ & _ & Hinv').
  repeat (split; [assumption|]). exists st'.
  split; [exact Hrun | split; [exact Hlist' | exact Hinv']].
Defined.

Lemma insert_correct_witness :
  invariant sample /\ to_list sample = (Return [10; 20; 10], sample) /\
  0 <= 2 <= _size sample /\
  exists st',
    insert 2 99 sample = (Return tt, st') /\
    to_list st' = (Return [10; 20; 99; 10], st') /\
    get 2 st' = (Return 99, st').
Proof.
  assert (invariant sample) as Hinv by invariant_by_evaluation.
  assert (to_list sample = (Return [10; 20; 10], sample)) as Hlist
    by (vm_compute; reflexivity).
  assert (0 <= 2 <= _size sample) as Hi
    by (split; vm_compute; discriminate).
  destruct (insert_correct sample [10; 20; 10] 2 99 Hinv Hlist) as (Hok & _).
  destruct (Hok Hi) as (st' & Hrun & Hlist' & Hget & _).
  repeat (split; [assumption|]). exists st'.
  split; [exact Hrun | split; [exact Hlist' | exact Hget]].
Defined.

Lemma nth_from_end_correct_witness :
  invariant sample /\ to_list sample = (Return [10; 20; 10], sample) /\
  1 <= 2 <= _size sample /\
  nth_from_end 2 sample = (Return 20, sample).
Proof.
  assert (invariant sample) as Hinv by invariant_by_evaluation.
  assert (to_list sample = (Return [10; 20; 10], sample)) as Hlist
    by (vm_compute; reflexivity).
  assert (1 <= 2 <= _size sample) as Hn
    by (split; vm_compute; discriminate).
  destruct (nth_from_end_correct sample [10; 20; 10] 2 Hinv Hlist)
    as (_ & _ & Hok & _).
  destruct (Hok Hn) as (v & Hv & Hrun).
  vm_compute in Hv. injection Hv as <-.
  repeat (split; [assumption|]). exact Hrun.
Defined.

Lemma middle_node_correct_witness :
  invariant four /\ to_list four = (Return [1; 2; 3; 4], four) /\
  0 < _size four /\
  invariant five /\ to_list five = (Return [1; 2; 3; 4; 5], five) /\
  0 < _size five /\
  (exists l, middle_node four = (Return (Some l), four) /\
             attr_value (Some l) four = (Return 3, four)) /\
  (exists l, middle_node five = (Return (Some l), five) /\
             attr_value (Some l) five = (Return 3, five)).
Proof.
  assert (invariant four) as Hinv4 by invariant_by_evaluation.
  assert (to_list four = (Return [1; 2; 3; 4], four)) as Hlist4
    by (vm_compute; reflexivity).
  assert (0 < _size four) as Hpos4 by (vm_compute; reflexivity).
  assert (invariant five) as Hinv5 by invariant_by_evaluation.
  assert (to_list five = (Return [1; 2; 3; 4; 5], five)) as Hlist5
    by (vm_compute; reflexivity).
  assert (0 < _size five) as Hpos5 by (vm_compute; reflexivity).
  destruct (middle_node_correct four [1; 2; 3; 4] Hinv4 Hlist4) as (_ & Hm4).
  destruct (middle_node_correct five [1; 2; 3; 4; 5] Hinv5 Hlist5)
    as (_ & Hm5).
  destruct (Hm4 Hpos4) as (l4 & v4 & Hrun4 & _ & Hv4 & Hval4).
  destruct (Hm5 Hpos5) as (l5 & v5 & Hrun5 & _ & Hv5 & Hval5).
  vm_compute in Hv4, Hv5. injection Hv4 as <-. injection Hv5 as <-.
  repeat (split; [assumption|]).
  split; [exists l4; split; [exact Hrun4 | exact Hval4]
         | exists l5; split; [exact Hrun5 | exact Hval5]].
Defined.

Lemma pop_correct_witness :
  invariant sample /\ to_list sample = (Return [10; 20; 10], sample) /\
  _size sample <> 0 /\
  (exists st', pop_left sample = (Return 10, st') /\
               to_list st' = (Return [20; 10], st')) /\
  (exists st', pop sample = (Return 10, st') /\
               to_list st' = (Return [10; 20], st')).
Proof.
  assert (invariant sample) as Hinv by invariant_by_evaluation.
  assert (to_list sample = (Return [10; 20; 10], sample)) as Hlist
    by (vm_compute; reflexivity).
  assert (_size sample <> 0) as Hnz by (vm_compute; discriminate).
  destruct (pop_correct sample [10; 20; 10] Hinv Hlist) as (_ & Hok).
  destruct (Hok Hnz) as ((v & s' & st' & Hs & Hrun & Hlist' & _) &
                         (w & r' & st2 & Hr & Hrun2 & Hlist2 & _)).
  injection Hs as Hv Hs'. subst v s'.
  assert (r' = [10; 20] /\ w = 10) as (Hr' & Hw).
  { change [10; 20; 10] with ([10; 20] ++ [10]) in Hr.
    apply app_inj_tail in Hr as (Hr1 & Hr2). by split. }
  subst r' w.
  repeat (split; [assumption|]).
  split; [exists st'; split; [exact Hrun | exact Hlist']
         | exists st2; split; [exact Hrun2 | exact Hlist2]].
Defined.

Lemma search_correct_witness :
  invariant sample /\ to_list sample = (Return [10; 20; 10], sample) /\
  index_of 10 sample = (Return 0, sample) /\
  __contains__ 10 sample = (Return true, sample) /\
  exists l, find 10 sample = (Return (Some l), sample) /\
            head sample = Some l.
Proof.
  assert (invariant sample) as Hinv by invariant_by_evaluation.
  assert (to_list sample = (Return [10; 20; 10], sample)) as Hlist
    by (vm_compute; reflexivity).
  destruct (search_correct sample [10; 20; 10] 10 Hinv Hlist)
    as (r & p & Hidx & Hcont & Hfind & Hin & _ & _ & Hp & Hnode).
  assert (10 ∈ [10; 20; 10]) as Hmem by constructor.
  destruct (Hin Hmem) as (H0 & _ & Hmin).
  assert (r = 0) as ->.
  { destruct (decide (r = 0)) as [|Hne]; [assumption|]. exfalso.
    apply (Hmin 0%nat); [lia | reflexivity]. }
  destruct p as [l|]; [|exfalso; by apply Hp].
  destruct (Hnode l eq_refl) as (Hsteps & _).
  repeat (split; [assumption|]).
  exists l. split; [exact Hfind | exact Hsteps].
Defined.

(** * Further properties of the code *)

Section More.
Context {V : Type} {eq_V : EqDecision V} {countable_V : Countable V}.
Implicit Types (h : gmap loc (Node V)) (p q : option loc).
Implicit Types (ns : list (loc * V)) (st : state V) (l : loc) (v : V).
Implicit Types (index : Z) (k : nat).

(** X1. Building a list from a sequence and reading it back gives the
    sequence: [from_iterable(vs).to_list() == vs], with [len] the length of
    [vs], whatever the store held before. *)
Theorem from_iterable_round_trip st (vs : list V) :
  exists st',
    from_iterable vs st = (Return tt, st') /\
    to_list st' = (Return vs, st') /\
    __len__ st' = (Return (Z.of_nat (length vs)), st') /\
    invariant st'.
Proof.
  unfold from_iterable.
  destruct (__init___spec st (Some vs)) as (ns & st' & Hrun & Hr & Hvs).
  simpl in Hvs. subst vs.
  destruct (repr_to_list_size st' ns Hr) as (Hlist & Hsz & Hinv).
  exists st'. split; [done|]. split; [done|]. split; [|done].
  unfold __len__, get_size. by rewrite Hsz.
Qed.

(** X2. On a well-formed list [len] is the number of elements that
    [to_list] returns, and [is_empty] is true exactly when there is none. *)
Theorem len_is_empty_correct st (s : list V) :
  invariant st -> to_list st = (Return s, st) ->
  __len__ st = (Return (Z.of_nat (length s)), st) /\
  is_empty st = (Return (bool_decide (s = [])), st).
Proof.
  intros Hinv Hlist.
  destruct (invariant_to_list st s Hinv Hlist) as (ns & Hr & <-).
  destruct (repr_to_list_size st ns Hr) as (_ & Hsz & _).
  split.
  - unfold __len__, get_size. by rewrite Hsz.
  - unfold is_empty. mrun. do 2 f_equal. rewrite Hsz.
    destruct (ns.*2) as [|x s].
    + by rewrite !bool_decide_eq_true_2.
    + rewrite !bool_decide_eq_false_2; [done | done | cbn [length]; lia].
Qed.

(** X3. [prepend v] puts [v] in front of the contents; [get 0] then returns
    [v], and a following [pop_left] returns [v] and restores the
    contents. *)
Theorem prepend_correct st (s : list V) (v : V) :
  invariant st -> to_list st = (Return s, st) ->
  exists st',
    prepend v st = (Return tt, st') /\
    to_list st' = (Return (v :: s), st') /\
    _size st' = _size st + 1 /\
    invariant st' /\
    get 0 st' = (Return v, st') /\
    exists st'',
      pop_left st' = (Return v, st'') /\ to_list st'' = (Return s, st'').
Proof.
  intros Hinv Hlist.
  destruct (invariant_to_list st s Hinv Hlist) as (ns & Hr & <-).
  destruct (prepend_spec st ns v Hr) as (l & st' & Hrun & Hr').
  destruct (repr_to_list_size st' _ Hr') as (Hlist' & Hsz' & Hinv').
  destruct (pop_left_spec st' l v ns Hr') as (st'' & Hpop & Hr'').
  exists st'. split; [done|]. split; [done|].
  split; [|split; [done|split]].
  - destruct Hr as (_ & _ & Hsz). rewrite Hsz', Hsz, !length_fmap.
    cbn [length]. lia.
  - by apply (get_spec st' _ 0 l v Hr').
  - exists st''. split; [done | by apply to_list_spec].
Qed.

(** X4. [append v] puts [v] behind the contents and makes its node the
    tail; [nth_from_end 1] then returns [v], and a following [pop] returns
    [v] and restores the contents. *)
Theorem append_correct st (s : list V) (v : V) :
  invariant st -> to_list st = (Return s, st) ->
  exists st',
    append v st = (Return tt, st') /\
    to_list st' = (Return (s ++ [v]), st') /\
    _size st' = _size st + 1 /\
    invariant st' /\
    attr_value (tail st') st' = (Return v, st') /\
    nth_from_end 1 st' = (Return v, st') /\
    exists st'',
      pop st' = (Return v, st'') /\ to_list st'' = (Return s, st'').
Proof.
  intros Hinv Hlist.
  destruct (invariant_to_list st s Hinv Hlist) as (ns & Hr & <-).
  destruct (append_spec st ns v Hr) as (l & st' & Hrun & Hr').
  destruct (repr_to_list_size st' _ Hr') as (Hlist' & Hsz' & Hinv').
  destruct (pop_spec st' ns l v Hr') as (st'' & Hpop & Hr'').
  rewrite fmap_app in Hlist'.
  pose proof Hr as (_ & _ & Hsz). pose proof Hr' as (Hs' & Ht' & Hsz1).
  rewrite length_app in Hsz1. cbn [length] in Hsz1.
  exists st'. split; [done|]. split; [done|].
  split; [lia|]. split; [done|]. split; [|split].
  - rewrite Ht', last_snoc_fst.
    apply lseg_snoc_inv in Hs' as (Hl & _). by mrun.
  - apply (nth_from_end_spec st' _ 1 l v Hr'); [lia|].
    replace (Z.to_nat (_size st' - 1)) with (length ns) by lia.
    by rewrite list_lookup_middle.
  - exists st''. split; [done | by apply to_list_spec].
Qed.

(** X5. [extend vs] appends the elements of [vs] in order; extending by
    nothing leaves the store as it is. *)
Theorem extend_correct st (s vs : list V) :
  invariant st -> to_list st = (Return s, st) ->
  (exists st',
     extend vs st = (Return tt, st') /\
     to_list st' = (Return (s ++ vs), st') /\
     _size st' = _size st + Z.of_nat (length vs) /\
     invariant st') /\
  extend [] st = (Return tt, st).
Proof.
  intros Hinv Hlist. split; [|done].
  destruct (invariant_to_list st s Hinv Hlist) as (ns & Hr & <-).
  destruct (extend_spec st ns vs Hr) as (ns' & st' & Hrun & Hr' & <-).
  destruct (repr_to_list_size st' _ Hr') as (Hlist' & Hsz' & Hinv').
  rewrite fmap_app in Hlist', Hsz'.
  exists st'. split; [done|]. split; [done|]. split; [|done].
  destruct Hr as (_ & _ & Hsz).
  rewrite Hsz', Hsz, length_app, !length_fmap. lia.
Qed.

(** X6. With 0 <= i < count, [set i v] replaces the element at position
    [i] and nothing else: the other elements, the count and the head and
    tail nodes stay, and [get i] then returns [v]. *)
Theorem set_correct st (s : list V) (i : Z) (v : V) :
  invariant st -> to_list st = (Return s, st) -> 0 <= i < _size st ->
  exists st',
    set i v st = (Return tt, st') /\
    to_list st' = (Return (<[Z.to_nat i := v]> s), st') /\
    get i st' = (Return v, st') /\
    _size st' = _size st /\ head st' = head st /\ tail st' = tail st /\
    invariant st'.
Proof.
  intros Hinv Hlist Hi.
  destruct (invariant_to_list st s Hinv Hlist) as (ns & Hr & <-).
  pose proof Hr as (Hs & Ht & Hsz).
  destruct (lookup_lt_is_Some_2 ns (Z.to_nat i)) as [[l x] Hk]; [lia|].
  destruct (set_spec st ns i l x v Hr ltac:(lia) Hk) as (st' & Hrun & Hr').
  destruct (repr_to_list_size st' _ Hr') as (Hlist' & Hsz' & Hinv').
  rewrite list_fmap_insert in Hlist'.
  pose proof Hr' as (Hs' & Ht' & _).
  exists st'. split; [done|]. split; [done|]. split.
  { apply (get_spec st' _ i l v Hr'); [lia|].
    apply list_lookup_insert_eq. by eapply lookup_lt_Some. }
  split; [|split; [|split; [|done]]].
  - by rewrite Hsz', Hsz, !length_fmap, length_insert.
  - rewrite (lseg_entry _ _ _ _ Hs'), (lseg_entry _ _ _ _ Hs).
    destruct ns as [|[l0 x0] ns]; [done|].
    destruct (Z.to_nat i) as [|k]; simpl in *; [|done].
    by injection Hk as -> ->.
  - by rewrite Ht', Ht, (last_fmap_insert_fst _ _ _ x).
Qed.

(** X7. [remove v] deletes the first element equal to [v] and returns
    [True]; when no element equals [v] it returns [False] and changes
    nothing. *)
Theorem remove_correct st (s : list V) (v : V) :
  invariant st -> to_list st = (Return s, st) ->
  (v ∈ s ->
   exists (i : nat) st',
     s !! i = Some v /\ (forall j, (j < i)%nat -> s !! j <> Some v) /\
     remove v st = (Return true, st') /\
     to_list st' = (Return (delete i s), st') /\
     _size st' = _size st - 1 /\
     invariant st') /\
  (v ∉ s -> remove v st = (Return false, st)).
Proof.
  intros Hinv Hlist.
  destruct (invariant_to_list st s Hinv Hlist) as (ns & Hr & <-).
  pose proof Hr as (_ & _ & Hsz).
  pose proof (remove_spec st ns v Hr) as Hrm.
  destruct (first_with v ns) as [[j [l x]]|] eqn:Hfw.
  - destruct (first_with_Some _ _ _ _ _ Hfw) as (-> & Hk & Hmin).
    destruct Hrm as (st' & Hrun & Hr').
    destruct (repr_to_list_size st' _ Hr') as (Hlist' & Hsz' & Hinv').
    rewrite list_fmap_delete in Hlist', Hsz'.
    assert (v ∈ ns.*2) as Hin.
    { apply list_elem_of_lookup. exists j. by rewrite list_lookup_fmap, Hk. }
    split; [|done]. intros _. exists j, st'.
    split; [by rewrite list_lookup_fmap, Hk|]. split; [done|].
    split; [done|]. split; [done|]. split; [|done].
    rewrite Hsz', Hsz, length_delete, length_fmap.
    + pose proof (lookup_lt_Some _ _ _ Hk). lia.
    + rewrite list_lookup_fmap, Hk. by eexists.
  - pose proof (first_with_None _ _ Hfw) as Hnin. split; [done|]. by intros _.
Qed.

(** X8. [clear] empties the list whatever state it was in, also a
    malformed one: afterwards the contents are empty, [len] is 0 and the
    invariant holds. *)
Theorem clear_correct st :
  exists st',
    clear st = (Return tt, st') /\
    to_list st' = (Return [], st') /\
    __len__ st' = (Return 0, st') /\
    is_empty st' = (Return true, st') /\
    head st' = None /\ tail st' = None /\
    heap st' = heap st /\
    invariant st'.
Proof.
  destruct (clear_spec st) as (st' & Hrun & Hr).
  destruct (repr_to_list_size st' _ Hr) as (Hlist & Hsz & Hinv).
  destruct (repr_nil_inv st' Hr) as (Hh & Ht).
  exists st'. split; [done|]. split; [done|].
  cbn [fmap list_fmap length] in Hsz.
  split; [by unfold __len__, get_size; rewrite Hsz|].
  split; [unfold is_empty; mrun; by rewrite Hsz|].
  split; [done|]. split; [done|]. split; [|done].
  unfold clear in Hrun. mrun. by injection Hrun as <-.
Qed.

(** X9. With 0 <= i < count, [get i] returns the element at position [i]
    of the contents and changes nothing. *)
Theorem get_correct st (s : list V) (i : Z) :
  invariant st -> to_list st = (Return s, st) -> 0 <= i < _size st ->
  exists v, s !! Z.to_nat i = Some v /\ get i st = (Return v, st).
Proof.
  intros Hinv Hlist Hi.
  destruct (invariant_to_list st s Hinv Hlist) as (ns & Hr & <-).
  pose proof Hr as (_ & _ & Hsz).
  destruct (lookup_lt_is_Some_2 ns (Z.to_nat i)) as [[l v] Hk]; [lia|].
  exists v. split; [by rewrite list_lookup_fmap, Hk|].
  apply (get_spec st ns i l v Hr); [lia | done].
Qed.

(** X10. With 0 <= i < count, [_node_at i] returns the node reached from
    [head] by [i] successor steps, without tripping its assertions:
    position 0 is the head node and position count - 1 the tail node. *)
Theorem node_at_correct st (i : Z) :
  invariant st -> 0 <= i < _size st ->
  exists l,
    _node_at i st = (Return (Some l), st) /\
    succ_steps (heap st) (Z.to_nat i) (head st) = Some l /\
    (i = 0 -> head st = Some l) /\
    (i = _size st - 1 -> tail st = Some l).
Proof.
  intros Hinv Hi. destruct (invariant_repr st Hinv) as (ns & Hr).
  pose proof Hr as (Hs & Ht & Hsz).
  destruct (lookup_lt_is_Some_2 ns (Z.to_nat i)) as [[l v] Hk]; [lia|].
  pose proof (repr_succ_steps st ns (Z.to_nat i) Hr ltac:(lia)) as Hsteps.
  rewrite Hk in Hsteps. simpl in Hsteps.
  exists l. split; [apply (_node_at_spec st ns i l v Hr); [lia | done]|].
  split; [done|]. split.
  - intros ->. by rewrite <- Hsteps.
  - intros ->. rewrite Ht, last_lookup, length_fmap, list_lookup_fmap.
    replace (pred (length ns)) with (Z.to_nat (_size st - 1)) by lia.
    by rewrite Hk.
Qed.

Lemma remove_duplicates_loop_nodup st k (seen : gset V) prev p ns :
  lseg (heap st) p ns None -> NoDup ns.*2 ->
  (forall x, x ∈ ns.*2 -> x ∉ seen) -> (length ns < k)%nat ->
  remove_duplicates_loop k seen prev p st = (Return tt, st).
Proof.
  revert k seen prev p. induction ns as [|[l x] ns IH];
    intros [|k] seen prev p Hs Hnd Hdisj Hk; cbn [length] in Hk; try lia.
  - simpl in Hs. by subst p.
  - simpl in Hs. destruct Hs as (-> & nx & Hl & Hs).
    cbn [fmap list_fmap snd] in Hnd, Hdisj.
    apply NoDup_cons in Hnd as (Hx & Hnd).
    cbn [remove_duplicates_loop]. mrun.
    rewrite decide_False by (apply Hdisj; by left). mrun.
    apply IH; [done | done | | lia].
    intros y Hy. apply not_elem_of_union. split.
    + apply not_elem_of_singleton. by intros ->.
    + apply Hdisj. by right.
Qed.

(** X11. On a list without duplicates [remove_duplicates] changes nothing
    in the store; so running it a second time after a first run is a
    no-op. *)
Theorem remove_duplicates_idempotent st (s : list V) :
  invariant st -> to_list st = (Return s, st) ->
  (NoDup s -> remove_duplicates st = (Return tt, st)) /\
  exists st',
    remove_duplicates st = (Return tt, st') /\
    remove_duplicates st' = (Return tt, st').
Proof.
  intros Hinv Hlist.
  destruct (invariant_to_list st s Hinv Hlist) as (ns & Hr & <-).
  assert (forall st0 ns0, repr st0 ns0 -> NoDup ns0.*2 ->
            remove_duplicates st0 = (Return tt, st0)) as Hnoop.
  { intros st0 ns0 (Hs0 & _) Hnd0. unfold remove_duplicates. mrun.
    apply (remove_duplicates_loop_nodup st0 _ ∅ None _ ns0); try done.
    pose proof (lseg_length _ _ _ Hs0). lia. }
  split; [by apply (Hnoop st ns)|].
  destruct (remove_duplicates_spec st ns Hr) as (st' & Hrun & Hr').
  exists st'. split; [done|].
  apply (Hnoop st' _ Hr'). apply dedup_nodes_NoDup.
Qed.

(** X12. [index_of] and [get] agree: the index that [index_of v] returns,
    when it is not -1, is a valid index at which [get] returns [v]; and
    when [get i] returns [v], [index_of v] returns an index between 0 and
    [i]. *)
Theorem index_of_get_agree st (s : list V) (v : V) (i : Z) :
  invariant st -> to_list st = (Return s, st) ->
  exists r,
    index_of v st = (Return r, st) /\
    -1 <= r < _size st /\
    (r <> -1 -> get r st = (Return v, st)) /\
    (get i st = (Return v, st) -> 0 <= r <= i).
Proof.
  intros Hinv Hlist.
  destruct (invariant_to_list st s Hinv Hlist) as (ns & Hr & <-).
  pose proof Hr as (_ & _ & Hsz).
  pose proof (index_of_spec st ns v Hr) as Hidx.
  destruct (first_with v ns) as [[j [l x]]|] eqn:Hfw.
  - destruct (first_with_Some _ _ _ _ _ Hfw) as (-> & Hk & Hmin).
    pose proof (lookup_lt_Some _ _ _ Hk) as Hlt.
    exists (Z.of_nat j). split; [done|]. split; [lia|]. split.
    + intros _. apply (get_spec st ns _ l v Hr); [lia|].
      by rewrite Nat2Z.id.
    + intros Hget. destruct (decide (0 <= i < _size st)) as [Hi|Hi].
      * destruct (lookup_lt_is_Some_2 ns (Z.to_nat i)) as [[l' v'] Hk'];
          [lia|].
        rewrite (get_spec st ns i l' v' Hr ltac:(lia) Hk') in Hget.
        injection Hget as ->.
        destruct (decide (j <= Z.to_nat i)%nat) as [Hle|Hgt]; [lia|].
        exfalso. apply (Hmin (Z.to_nat i)); [lia|].
        by rewrite list_lookup_fmap, Hk'.
      * by rewrite get_raise in Hget by lia.
  - pose proof (first_with_None _ _ Hfw) as Hnin.
    exists (-1). split; [done|]. split; [lia|]. split; [done|].
    intros Hget. exfalso. destruct (decide (0 <= i < _size st)) as [Hi|Hi].
    + destruct (lookup_lt_is_Some_2 ns (Z.to_nat i)) as [[l' v'] Hk'];
        [lia|].
      rewrite (get_spec st ns i l' v' Hr ltac:(lia) Hk') in Hget.
      injection Hget as ->. apply Hnin.
      apply list_elem_of_lookup. exists (Z.to_nat i).
      by rewrite list_lookup_fmap, Hk'.
    + by rewrite get_raise in Hget by lia.
Qed.

(** X13. Counting from the end and from the front agree: with
    1 <= n <= count, [nth_from_end n] returns what [get (count - n)]
    returns. *)
Theorem nth_from_end_get_agree st (n : Z) :
  invariant st -> 1 <= n <= _size st ->
  exists v,
    nth_from_end n st = (Return v, st) /\
    get (_size st - n) st = (Return v, st).
Proof.
  intros Hinv Hn. destruct (invariant_repr st Hinv) as (ns & Hr).
  pose proof Hr as (_ & _ & Hsz).
  destruct (lookup_lt_is_Some_2 ns (Z.to_nat (_size st - n)))
    as [[l v] Hk]; [lia|].
  exists v. split.
  - apply (nth_from_end_spec st ns n l v Hr); [lia | done].
  - apply (get_spec st ns _ l v Hr); [lia | done].
Qed.

(** X14. [reverse] mirrors the positions: with 0 <= i < count, [get i]
    after [reverse] returns what [get (count - 1 - i)] returned before. *)
Theorem reverse_get_mirror st (i : Z) :
  invariant st -> 0 <= i < _size st ->
  exists v st',
    reverse st = (Return tt, st') /\
    get (_size st - 1 - i) st = (Return v, st) /\
    get i st' = (Return v, st').
Proof.
  intros Hinv Hi. destruct (invariant_repr st Hinv) as (ns & Hr).
  pose proof Hr as (_ & _ & Hsz).
  destruct (reverse_spec st ns Hr) as (st' & Hrun & Hr').
  destruct (lookup_lt_is_Some_2 ns (Z.to_nat (_size st - 1 - i)))
    as [[l v] Hk]; [lia|].
  exists v, st'. split; [done|]. split.
  - apply (get_spec st ns _ l v Hr); [lia | done].
  - apply (get_spec st' _ i l v Hr'); [lia|].
    rewrite reverse_lookup by lia.
    replace (length ns - S (Z.to_nat i))%nat
      with (Z.to_nat (_size st - 1 - i)) by lia.
    done.
Qed.

(** X15. Inserting and removing at the same index is a round trip: with
    0 <= i <= count, [remove_at i] after [insert i v] returns [v] and
    restores the contents and the count. *)
Theorem insert_remove_at_round_trip st (s : list V) (i : Z) (v : V) :
  invariant st -> to_list st = (Return s, st) -> 0 <= i <= _size st ->
  exists st' st'',
    insert i v st = (Return tt, st') /\
    remove_at i st' = (Return v, st'') /\
    to_list st'' = (Return s, st'') /\
    _size st'' = _size st /\
    invariant st''.
Proof.
  intros Hinv Hlist Hi.
  destruct (invariant_to_list st s Hinv Hlist) as (ns & Hr & <-).
  pose proof Hr as (_ & _ & Hsz).
  destruct (insert_spec st ns i v Hr Hi) as (l & st' & Hrun & Hr').
  assert (length (take (Z.to_nat i) ns) = Z.to_nat i) as Hlen
    by (rewrite length_take; lia).
  assert ((take (Z.to_nat i) ns ++ (l, v) :: drop (Z.to_nat i) ns)
            !! Z.to_nat i = Some (l, v)) as Hk
    by (by rewrite list_lookup_middle).
  destruct (remove_at_spec st' _ i l v Hr' ltac:(lia) Hk)
    as (st'' & Hrun' & Hr'').
  rewrite <- Hlen in Hr'' at 1. rewrite delete_middle, take_drop in Hr''.
  destruct (repr_to_list_size st'' ns Hr'') as (Hlist'' & _ & Hinv'').
  exists st', st''. split; [done|]. split; [done|]. split; [done|].
  split; [|done]. destruct Hr'' as (_ & _ & Hsz''). lia.
Qed.

(** ** Queries only read *)

Lemma ro_ret {A} (a : A) : read_only (V := V) (ret a).
Proof. by intros st. Qed.

Lemma ro_raise {A} e : read_only (V := V) (A := A) (raise e).
Proof. by intros st. Qed.

Lemma ro_diverge {A} : read_only (V := V) (A := A) diverge.
Proof. by intros st. Qed.

Lemma ro_bind {A B} (m : M A) (f : A -> M (V := V) B) :
  read_only m -> (forall a, read_only (f a)) -> read_only (bind m f).
Proof.
  intros Hm Hf st. unfold bind. specialize (Hm st).
  destruct (m st) as [[a|e| |] st1]; simpl in Hm; subst st1; try done.
  apply Hf.
Qed.

Lemma ro_get_head : read_only (V := V) get_head.
Proof. by intros st. Qed.

Lemma ro_get_tail : read_only (V := V) get_tail.
Proof. by intros st. Qed.

Lemma ro_get_size : read_only (V := V) get_size.
Proof. by intros st. Qed.

Lemma ro_fuel : read_only (V := V) fuel.
Proof. by intros st. Qed.

Lemma ro_load p : read_only (V := V) (load p).
Proof.
  intros st. unfold load. destruct p as [l|]; [|done].
  by destruct (heap st !! l).
Qed.

Lemma ro_assert_not_None p : read_only (V := V) (assert_not_None p).
Proof. intros st. by destruct p. Qed.

Ltac ro :=
  repeat first
    [ assumption
    | apply ro_ret | apply ro_raise | apply ro_diverge
    | apply ro_get_head | apply ro_get_tail | apply ro_get_size
    | apply ro_fuel | apply ro_load | apply ro_assert_not_None
    | apply ro_bind; [|intros ?]
    | match goal with
      | |- read_only (if ?b then _ else _) => destruct b
      | |- read_only (match ?x with _ => _ end) => destruct x
      | IH : forall _, _ |- _ => apply IH
      end ].

Lemma ro_attr_value p : read_only (V := V) (attr_value p).
Proof. unfold attr_value. ro. Qed.

Lemma ro_attr_next p : read_only (V := V) (attr_next p).
Proof. unfold attr_next. ro. Qed.

Lemma ro_fast_can_advance p : read_only (V := V) (fast_can_advance p).
Proof.
  unfold fast_can_advance. destruct p; [|ro].
  apply ro_bind; [apply ro_attr_next | intros; ro].
Qed.

Lemma ro__check_index index allow_end :
  read_only (V := V) (_check_index index allow_end).
Proof. unfold _check_index. ro. Qed.

Ltac ro' :=
  repeat first
    [ assumption
    | apply ro_attr_value | apply ro_attr_next | apply ro_fast_can_advance
    | apply ro__check_index
    | apply ro_ret | apply ro_raise | apply ro_diverge
    | apply ro_get_head | apply ro_get_tail | apply ro_get_size
    | apply ro_fuel | apply ro_load | apply ro_assert_not_None
    | apply ro_bind; [|intros ?]
    | match goal with
      | |- read_only (if ?b then _ else _) => destruct b
      | |- read_only (match ?x with _ => _ end) => destruct x
      | IH : forall _, _ |- _ => apply IH
      end ].

Lemma ro_iter_loop k p : read_only (V := V) (iter_loop k p).
Proof. revert p. induction k as [|k IH]; intros p; simpl; ro'. Qed.

Lemma ro__node_at_loop k p : read_only (V := V) (_node_at_loop k p).
Proof. revert p. induction k as [|k IH]; intros p; simpl; ro'. Qed.

Lemma ro_index_of_loop k v p (i : Z) :
  read_only (V := V) (index_of_loop k v p i).
Proof. revert p i. induction k as [|k IH]; intros p i; simpl; ro'. Qed.

Lemma ro_find_loop k v p : read_only (V := V) (find_loop k v p).
Proof. revert p. induction k as [|k IH]; intros p; simpl; ro'. Qed.

Lemma ro_middle_node_loop k p q : read_only (V := V) (middle_node_loop k p q).
Proof. revert p q. induction k as [|k IH]; intros p q; simpl; ro'. Qed.

Lemma ro_nth_lead_loop k p : read_only (V := V) (nth_lead_loop k p).
Proof. revert p. induction k as [|k IH]; intros p; simpl; ro'. Qed.

Lemma ro_nth_follow_loop k p q : read_only (V := V) (nth_follow_loop k p q).
Proof. revert p q. induction k as [|k IH]; intros p q; simpl; ro'. Qed.

Lemma ro_has_cycle_loop k p q : read_only (V := V) (has_cycle_loop k p q).
Proof. revert p q. induction k as [|k IH]; intros p q; simpl; ro'. Qed.

Lemma ro_cycle_meet_loop k p q : read_only (V := V) (cycle_meet_loop k p q).
Proof. revert p q. induction k as [|k IH]; intros p q; simpl; ro'. Qed.

Lemma ro_cycle_entry_loop k p q : read_only (V := V) (cycle_entry_loop k p q).
Proof. revert p q. induction k as [|k IH]; intros p q; simpl; ro'. Qed.

Lemma ro__node_at index : read_only (V := V) (_node_at index).
Proof.
  unfold _node_at. apply ro_bind; [apply ro__check_index | intros _].
  apply ro_bind; [apply ro_get_head | intros cur].
  apply ro_bind; [apply ro__node_at_loop | intros cur'].
  apply ro_bind; [apply ro_assert_not_None | intros _]. apply ro_ret.
Qed.

(** X16. The queries never modify the store, whatever its shape (well
    formed, malformed or cyclic) and whatever their outcome: [to_list],
    [len], [is_empty], [get], [index_of], [in], [find], [middle_node],
    [nth_from_end], [has_cycle] and [cycle_start]. *)
Theorem queries_read_only :
  read_only (V := V) to_list /\ read_only (V := V) __len__ /\
  read_only (V := V) is_empty /\
  (forall index, read_only (V := V) (get index)) /\
  (forall v : V, read_only (index_of v)) /\
  (forall v : V, read_only (__contains__ v)) /\
  (forall v : V, read_only (find v)) /\
  read_only (V := V) middle_node /\
  (forall n, read_only (V := V) (nth_from_end n)) /\
  read_only (V := V) has_cycle /\
  read_only (V := V) cycle_start.
Proof.
  split_and!.
  - unfold to_list. apply ro_bind; [apply ro_fuel | intros k].
    apply ro_bind; [apply ro_get_head | intros p]. apply ro_iter_loop.
  - apply ro_get_size.
  - unfold is_empty. apply ro_bind; [apply ro_get_size | intros]. apply ro_ret.
  - intros index. unfold get.
    apply ro_bind; [apply ro__node_at | intros]. apply ro_attr_value.
  - intros v. unfold index_of. apply ro_bind; [apply ro_fuel | intros k].
    apply ro_bind; [apply ro_get_head | intros p]. apply ro_index_of_loop.
  - intros v. unfold __contains__, index_of.
    apply ro_bind; [|intros; apply ro_ret].
    apply ro_bind; [apply ro_fuel | intros k].
    apply ro_bind; [apply ro_get_head | intros p]. apply ro_index_of_loop.
  - intros v. unfold find. apply ro_bind; [apply ro_fuel | intros k].
    apply ro_bind; [apply ro_get_head | intros p]. apply ro_find_loop.
  - unfold middle_node. apply ro_bind; [apply ro_fuel | intros k].
    apply ro_bind; [apply ro_get_head | intros p].
    apply ro_bind; [apply ro_get_head | intros q]. apply ro_middle_node_loop.
  - intros n. unfold nth_from_end.
    destruct (decide (n <= 0)); [apply ro_raise|].
    apply ro_bind; [apply ro_get_size | intros sz].
    destruct (decide (n > sz)); [apply ro_raise|].
    apply ro_bind; [apply ro_fuel | intros k].
    apply ro_bind; [apply ro_get_head | intros p].
    apply ro_bind; [apply ro_get_head | intros q].
    apply ro_bind; [apply ro_nth_lead_loop | intros p'].
    apply ro_bind; [apply ro_nth_follow_loop | intros q'].
    apply ro_bind; [apply ro_assert_not_None | intros _].
    apply ro_attr_value.
  - unfold has_cycle. apply ro_bind; [apply ro_fuel | intros k].
    apply ro_bind; [apply ro_get_head | intros p].
    apply ro_bind; [apply ro_get_head | intros q]. apply ro_has_cycle_loop.
  - unfold cycle_start. apply ro_bind; [apply ro_fuel | intros k].
    apply ro_bind; [apply ro_get_head | intros p].
    apply ro_bind; [apply ro_get_head | intros q].
    apply ro_bind; [apply ro_cycle_meet_loop | intros [slow|]].
    + apply ro_bind; [apply ro_get_head | intros p1].
      apply ro_cycle_entry_loop.
    + apply ro_ret.
Qed.

(** ** [cycle_start] on a well-formed list *)

Lemma cycle_meet_loop_acyclic st k slow fast ns_s ns_f (i : nat) :
  lseg (heap st) slow ns_s None -> lseg (heap st) fast ns_f None ->
  ns_f = drop i ns_s -> (length ns_f < 2 * k)%nat ->
  cycle_meet_loop k slow fast st = (Return None, st).
Proof.
  revert slow fast ns_s ns_f i.
  induction k as [|k IH]; intros slow fast ns_s ns_f i Hs Hf Hdrop Hk; [lia|].
  cbn [cycle_meet_loop]. unfold bind at 1.
  rewrite (fast_can_advance_spec st fast ns_f Hf).
  destruct ns_f as [|[l1 v1] [|[l2 v2] ns_f]]; [done | done |].
  cbn [length] in *.
  destruct ns_s as [|[ls vs] ns_s]; [by rewrite drop_nil in Hdrop|].
  pose proof (lseg_NoDup _ _ _ Hs) as Hnd.
  assert (ns_f = drop (S i) ns_s) as Hdrop'.
  { apply (f_equal (drop 2)) in Hdrop. simpl in Hdrop.
    rewrite drop_0 in Hdrop. rewrite Hdrop.
    rewrite drop_drop. replace (i + 2)%nat with (S (S i)) by lia. done. }
  simpl in Hs, Hf.
  destruct Hs as (-> & nxs & Hls & Hs).
  destruct Hf as (-> & nx1 & Hl1 & -> & nx2 & Hl2 & Hf).
  mrun. rewrite decide_False.
  - apply (IH nxs nx2 ns_s ns_f (S i)); try done. lia.
  - rewrite (lseg_entry _ _ _ _ Hs), (lseg_entry _ _ _ _ Hf), Hdrop'.
    rewrite entry_drop. destruct ns_s as [|[l0 v0] ns_s].
    { destruct i; simpl in Hdrop; [done | by rewrite drop_nil in Hdrop]. }
    simpl. destruct (ns_s !! i) as [[l' v']|] eqn:E; [|done]. simpl.
    intros [= ->]. simpl in Hnd. apply NoDup_cons in Hnd as (_ & Hnd).
    apply NoDup_cons in Hnd as (Hnin & _). apply Hnin.
    apply list_elem_of_lookup. exists i. by rewrite list_lookup_fmap, E.
Qed.

(** X17. On a well-formed list [cycle_start] returns [None] and changes
    nothing. *)
Theorem cycle_start_acyclic st :
  invariant st -> cycle_start st = (Return None, st).
Proof.
  intros Hinv. destruct (invariant_repr st Hinv) as (ns & (Hs & _)).
  unfold cycle_start. mrun.
  rewrite (cycle_meet_loop_acyclic st _ (head st) (head st) ns ns 0);
    try done.
  pose proof (lseg_length _ _ _ Hs). lia.
Qed.

(** ** Floyd's algorithm on a chain that runs into a cycle *)

Lemma succ_steps_None h k : succ_steps h (S k) None = None.
Proof. done. Qed.

Lemma succ_steps_add h (a b : nat) p :
  succ_steps h (a + b) p = succ_steps h b (succ_steps h a p).
Proof.
  revert p. induction a as [|a IH]; intros p; simpl; [done|].
  destruct p as [l|]; [|by destruct b].
  destruct (h !! l) as [nd|]; [apply IH | by destruct b].
Qed.

Lemma lseg_succ_steps_to h p ns q k :
  lseg h p ns q -> (k <= length ns)%nat ->
  succ_steps h k p = entry (drop k ns) q.
Proof.
  revert p ns. induction k as [|k IH]; intros p ns Hs Hk.
  - rewrite drop_0. simpl. by apply (lseg_entry h).
  - destruct ns as [|[l v] ns]; cbn [length] in Hk; [lia|].
    destruct Hs as (-> & nx & Hl & Hs). simpl. rewrite Hl. simpl.
    apply IH; [done | lia].
Qed.

Lemma run_bind {A B} (m : M A) (f : A -> M (V := V) B) st a st' :
  m st = (Return a, st') -> bind m f st = f a st'.
Proof. intros Hm. unfold bind. by rewrite Hm. Qed.

Section Cycle.
Variables (st : state V) (ns : list (loc * V)) (mu : nat) (c : loc).
Hypothesis Hcycle : cycle_at st ns mu c.

Lemma cycle_mu_lt : (mu < length ns)%nat.
Proof.
  destruct Hcycle as (_ & _ & Hc).
  destruct (ns !! mu) as [n|] eqn:E; [|done]. by eapply lookup_lt_Some.
Qed.

Lemma walk_lt k :
  (k < length ns)%nat -> walk st k = fst <$> ns !! k /\ is_Some (ns !! k).
Proof.
  intros Hk. destruct Hcycle as (Hs & _ & _). unfold walk.
  rewrite (lseg_succ_steps_to _ _ _ _ _ Hs) by lia.
  destruct (lookup_lt_is_Some_2 ns k Hk) as [[l v] E].
  rewrite (drop_S _ _ _ E), E. split; [done | by eexists].
Qed.

Lemma walk_length : walk st (length ns) = walk st mu.
Proof.
  destruct Hcycle as (Hs & _ & Hc). pose proof cycle_mu_lt as Hlt.
  destruct (walk_lt mu Hlt) as (-> & _). rewrite Hc. unfold walk.
  rewrite (lseg_succ_steps_to _ _ _ _ _ Hs) by lia.
  by rewrite drop_all.
Qed.

Lemma walk_add (a b : nat) :
  walk st (a + b) = succ_steps (heap st) b (walk st a).
Proof. apply succ_steps_add. Qed.

Lemma walk_period k :
  (mu <= k)%nat -> walk st (k + (length ns - mu)) = walk st k.
Proof.
  intros Hk. pose proof cycle_mu_lt as Hlt.
  replace (k + (length ns - mu))%nat with (length ns + (k - mu))%nat by lia.
  rewrite walk_add, walk_length, <- walk_add. f_equal. lia.
Qed.

Lemma walk_period_mul k (m : nat) :
  (mu <= k)%nat -> walk st (k + m * (length ns - mu)) = walk st k.
Proof.
  intros Hk. induction m as [|m IH]; [by rewrite Nat.add_0_r|].
  replace (k + S m * (length ns - mu))%nat
    with ((k + m * (length ns - mu)) + (length ns - mu))%nat by lia.
  rewrite walk_period by lia. done.
Qed.

Lemma walk_on_cycle k :
  (mu <= k)%nat ->
  exists k', (mu <= k' < length ns)%nat /\ walk st k = walk st k'.
Proof.
  pose proof cycle_mu_lt as Hlt.
  induction k as [k IH] using lt_wf_ind. intros Hk.
  destruct (decide (k < length ns)%nat) as [Hin|Hout].
  - exists k. split; [lia | done].
  - destruct (IH (k - (length ns - mu))%nat ltac:(lia) ltac:(lia))
      as (k' & Hk' & Heq).
    exists k'. split; [done|]. rewrite <- Heq.
    rewrite <- (walk_period (k - (length ns - mu))) by lia. f_equal. lia.
Qed.

Lemma walk_is_Some k : is_Some (walk st k).
Proof.
  pose proof cycle_mu_lt as Hlt.
  assert (forall j, (j < length ns)%nat -> is_Some (walk st j)) as Hsome.
  { intros j Hj. destruct (walk_lt j Hj) as (-> & [[l v] ->]). by eexists. }
  destruct (decide (k < length ns)%nat) as [Hin|Hout]; [by apply Hsome|].
  destruct (walk_on_cycle k ltac:(lia)) as (k' & Hk' & ->).
  apply Hsome. lia.
Qed.

Lemma walk_inj (a b : nat) :
  (a < length ns)%nat -> (b < length ns)%nat ->
  walk st a = walk st b -> a = b.
Proof.
  intros Ha Hb Heq. destruct Hcycle as (_ & Hnd & _).
  destruct (walk_lt a Ha) as (Hwa & [[la va] Ea]).
  destruct (walk_lt b Hb) as (Hwb & [[lb vb] Eb]).
  rewrite Hwa, Hwb, Ea, Eb in Heq. simpl in Heq. injection Heq as ->.
  apply (NoDup_lookup _ a b lb Hnd).
  - by rewrite list_lookup_fmap, Ea.
  - by rewrite list_lookup_fmap, Eb.
Qed.

Lemma multiple_between (lam : nat) :
  (0 < lam)%nat ->
  exists m : nat, (1 <= m)%nat /\ (mu <= m * lam <= mu + lam)%nat.
Proof.
  intros Hlam. clear Hcycle. induction mu as [|mu' IH].
  - exists 1%nat. lia.
  - destruct IH as (m & Hm & Hle).
    destruct (decide (S mu' <= m * lam)%nat) as [Hok|Hno].
    + exists m. lia.
    + exists (S m). lia.
Qed.

(** The pointers meet within [length ns] iterations. *)
Lemma meet_exists :
  exists i : nat,
    (1 <= i <= length ns)%nat /\ walk st i = walk st (2 * i).
Proof.
  pose proof cycle_mu_lt as Hlt.
  destruct (multiple_between (length ns - mu) ltac:(lia)) as (m & Hm & Hle).
  exists (m * (length ns - mu))%nat. split; [nia|].
  replace (2 * (m * (length ns - mu)))%nat
    with (m * (length ns - mu) + m * (length ns - mu))%nat by lia.
  rewrite walk_period_mul by lia. done.
Qed.

(** Where they meet is on the cycle. *)
Lemma meet_on_cycle (i : nat) :
  (1 <= i)%nat -> walk st i = walk st (2 * i) -> (mu <= i)%nat.
Proof.
  intros Hi Heq. pose proof cycle_mu_lt as Hlt.
  destruct (decide (mu <= i)%nat) as [|Hlow]; [done|]. exfalso.
  destruct (decide (2 * i < length ns)%nat) as [Hin|Hout].
  - pose proof (walk_inj i (2 * i) ltac:(lia) Hin Heq). lia.
  - destruct (walk_on_cycle (2 * i) ltac:(lia)) as (k' & Hk' & Heq').
    rewrite Heq' in Heq.
    pose proof (walk_inj i k' ltac:(lia) ltac:(lia) Heq). lia.
Qed.

(** From the meeting point and from [head], [mu] steps lead to the same
    node, the entry of the cycle. *)
Lemma meet_shift (i : nat) :
  (mu <= i)%nat -> walk st i = walk st (2 * i) ->
  walk st (i + mu) = walk st mu.
Proof.
  intros Hi Heq. pose proof cycle_mu_lt as Hlt.
  set (lam := (length ns - mu)%nat).
  assert (forall d : nat, walk st (i + d) = walk st (2 * i + d)) as Hshift.
  { intros d. by rewrite !walk_add, Heq. }
  specialize (Hshift (mu + i * lam - i)%nat).
  replace (i + (mu + i * lam - i))%nat with (mu + i * lam)%nat in Hshift
    by nia.
  replace (2 * i + (mu + i * lam - i))%nat with ((i + mu) + i * lam)%nat
    in Hshift by nia.
  unfold lam in Hshift. rewrite !walk_period_mul in Hshift by lia. done.
Qed.

Lemma before_entry_ne (i j : nat) :
  (mu <= i)%nat -> (j < mu)%nat -> walk st j <> walk st (i + j).
Proof.
  intros Hi Hj Heq. pose proof cycle_mu_lt as Hlt.
  destruct (walk_on_cycle (i + j) ltac:(lia)) as (k' & Hk' & Heq').
  rewrite Heq' in Heq.
  pose proof (walk_inj j k' ltac:(lia) ltac:(lia) Heq). lia.
Qed.

Lemma attr_next_walk k :
  attr_next (walk st k) st = (Return (walk st (S k)), st).
Proof.
  pose proof (walk_is_Some (S k)) as [l' Hnext].
  replace (S k) with (k + 1)%nat in * by lia.
  rewrite Hnext. rewrite walk_add in Hnext.
  destruct (walk st k) as [l|]; [|done]. simpl in Hnext.
  unfold attr_next, load, bind, ret.
  destruct (heap st !! l) as [nd|]; [|done]. by rewrite Hnext.
Qed.

Lemma fast_can_advance_walk k :
  fast_can_advance (walk st k) st = (Return true, st).
Proof.
  pose proof (attr_next_walk k) as Hnext.
  destruct (walk_is_Some k) as [l Hl].
  destruct (walk_is_Some (S k)) as [l' Hl'].
  rewrite Hl in *. unfold fast_can_advance.
  rewrite (run_bind _ _ _ _ _ Hnext), Hl'. done.
Qed.

Lemma floyd_step {A} k (f : option loc -> option loc -> M A) :
  bind (attr_next (walk st k))
    (fun slow' =>
       bind (attr_next (walk st (2 * k)))
         (fun f1 => bind (attr_next f1) (fun fast' => f slow' fast'))) st =
  f (walk st (S k)) (walk st (2 * S k)) st.
Proof.
  rewrite (run_bind _ _ _ _ _ (attr_next_walk k)).
  rewrite (run_bind _ _ _ _ _ (attr_next_walk (2 * k))).
  rewrite (run_bind _ _ _ _ _ (attr_next_walk (S (2 * k)))).
  by replace (S (S (2 * k))) with (2 * S k)%nat by lia.
Qed.

Lemma has_cycle_loop_meets k (i j : nat) :
  (1 <= j <= k)%nat -> walk st (i + j) = walk st (2 * (i + j)) ->
  has_cycle_loop k (walk st i) (walk st (2 * i)) st = (Return true, st).
Proof.
  revert i j. induction k as [|k IH]; intros i j Hj Hmeet; [lia|].
  cbn [has_cycle_loop].
  rewrite (run_bind _ _ _ _ _ (fast_can_advance_walk (2 * i))).
  rewrite (floyd_step i
             (fun slow' fast' =>
                if decide (slow' = fast') then ret true
                else has_cycle_loop k slow' fast')).
  destruct (decide (walk st (S i) = walk st (2 * S i))) as [|Hne]; [done|].
  apply (IH (S i) (j - 1)%nat).
  - destruct (decide (j = 1%nat)) as [->|]; [|lia].
    exfalso. apply Hne. by replace (S i) with (i + 1)%nat by lia.
  - by replace (S i + (j - 1))%nat with (i + j)%nat by lia.
Qed.

Lemma cycle_meet_loop_meets k (i j : nat) :
  (1 <= j <= k)%nat -> walk st (i + j) = walk st (2 * (i + j)) ->
  exists m : nat,
    (1 <= m)%nat /\ walk st m = walk st (2 * m) /\
    cycle_meet_loop k (walk st i) (walk st (2 * i)) st =
      (Return (Some (walk st m)), st).
Proof.
  revert i j. induction k as [|k IH]; intros i j Hj Hmeet; [lia|].
  cbn [cycle_meet_loop].
  rewrite (run_bind _ _ _ _ _ (fast_can_advance_walk (2 * i))).
  rewrite (floyd_step i
             (fun slow' fast' =>
                if decide (slow' = fast') then ret (Some slow')
                else cycle_meet_loop k slow' fast')).
  destruct (decide (walk st (S i) = walk st (2 * S i))) as [Heq|Hne].
  - exists (S i). split; [lia|]. split; done.
  - apply (IH (S i) (j - 1)%nat).
    + destruct (decide (j = 1%nat)) as [->|]; [|lia].
      exfalso. apply Hne. by replace (S i) with (i + 1)%nat by lia.
    + by replace (S i + (j - 1))%nat with (i + j)%nat by lia.
Qed.

Lemma cycle_entry_loop_finds k (m j : nat) :
  (mu <= m)%nat -> walk st m = walk st (2 * m) ->
  (j <= mu)%nat -> (mu - j < k)%nat ->
  cycle_entry_loop k (walk st j) (walk st (m + j)) st =
    (Return (walk st mu), st).
Proof.
  intros Hm Hmeet. revert j. induction k as [|k IH]; intros j Hj Hk; [lia|].
  cbn [cycle_entry_loop].
  destruct (decide (j = mu)) as [->|Hne].
  - rewrite decide_True by (symmetry; by apply meet_shift). done.
  - rewrite decide_False by (apply before_entry_ne; lia).
    destruct (walk_is_Some j) as [l1 Hl1].
    destruct (walk_is_Some (m + j)) as [l2 Hl2].
    pose proof (attr_next_walk j) as Hn1.
    pose proof (attr_next_walk (m + j)) as Hn2.
    rewrite Hl1, Hl2 in *. cbn [assert_not_None].
    unfold bind at 1. cbn [ret]. unfold bind at 1. cbn [ret].
    rewrite (run_bind _ _ _ _ _ Hn1), (run_bind _ _ _ _ _ Hn2).
    replace (S (m + j)) with (m + S j)%nat by lia.
    apply IH; lia.
Qed.

Lemma cycle_fuel : (length ns <= size (heap st))%nat.
Proof.
  destruct Hcycle as (Hs & Hnd & _).
  rewrite <- (length_fmap fst ns).
  rewrite <- (size_list_to_set (C := gset loc) (ns.*1)); [|done].
  rewrite <- size_dom. apply subseteq_size.
  intros l Hl. apply elem_of_list_to_set in Hl.
  apply elem_of_dom. by eapply lseg_lookup.
Qed.

Lemma load_walk k :
  exists nd, load (walk st k) st = (Return nd, st) /\ next nd = walk st (S k).
Proof.
  pose proof (walk_is_Some (S k)) as [l' Hnext].
  replace (S k) with (k + 1)%nat in * by lia.
  rewrite Hnext. rewrite walk_add in Hnext.
  destruct (walk st k) as [l|]; [|done]. simpl in Hnext.
  unfold load. destruct (heap st !! l) as [nd|]; [|done]. by exists nd.
Qed.

Lemma iter_loop_never_returns k (i : nat) :
  iter_loop k (walk st i) st = (Diverge, st).
Proof.
  revert i. induction k as [|k IH]; intros i; [done|].
  cbn [iter_loop]. destruct (load_walk i) as (nd & Hload & Hnext).
  destruct (walk st i) as [l|] eqn:Hw; [|by destruct (walk_is_Some i)].
  unfold attr_value, attr_next.
  rewrite (run_bind _ _ _ _ _ (run_bind _ _ _ _ _ Hload)). cbn [ret].
  rewrite (run_bind _ _ _ _ _ (run_bind _ _ _ _ _ Hload)). cbn [ret].
  rewrite Hnext. unfold bind. by rewrite IH.
Qed.

Lemma walk_value (k : nat) nd :
  load (walk st k) st = (Return nd, st) -> value nd ∈ ns.*2.
Proof.
  intros Hload. pose proof cycle_mu_lt as Hlt.
  assert (exists k', (k' < length ns)%nat /\ walk st k = walk st k')
    as (k' & Hk' & Heq).
  { destruct (decide (k < length ns)%nat) as [|Hout]; [by exists k|].
    destruct (walk_on_cycle k ltac:(lia)) as (k' & Hk' & Heq).
    exists k'. split; [lia | done]. }
  rewrite Heq in Hload.
  destruct (walk_lt k' Hk') as (Hw & [[l v] E]).
  rewrite Hw, E in Hload. simpl in Hload.
  destruct Hcycle as (Hs & _ & _).
  rewrite <- (take_drop_middle ns k' (l, v) E) in Hs.
  apply lseg_app in Hs as (m & _ & Hs). simpl in Hs.
  destruct Hs as (_ & nx & Hl & _). rewrite Hl in Hload.
  injection Hload as <-. simpl.
  apply list_elem_of_lookup. exists k'. by rewrite list_lookup_fmap, E.
Qed.

Lemma index_of_loop_never_returns k v (i : nat) (z : Z) :
  v ∉ ns.*2 -> index_of_loop k v (walk st i) z st = (Diverge, st).
Proof.
  intros Hnin. revert i z. induction k as [|k IH]; intros i z; [done|].
  cbn [index_of_loop]. destruct (load_walk i) as (nd & Hload & Hnext).
  pose proof (walk_value i nd Hload) as Hval.
  destruct (walk st i) as [l|] eqn:Hw; [|by destruct (walk_is_Some i)].
  unfold attr_value, attr_next.
  rewrite (run_bind _ _ _ _ _ (run_bind _ _ _ _ _ Hload)). cbn [ret].
  rewrite decide_False by (by intros <-).
  rewrite (run_bind _ _ _ _ _ (run_bind _ _ _ _ _ Hload)). cbn [ret].
  rewrite Hnext. apply IH.
Qed.

Lemma find_loop_never_returns k v (i : nat) :
  v ∉ ns.*2 -> find_loop k v (walk st i) st = (Diverge, st).
Proof.
  intros Hnin. revert i. induction k as [|k IH]; intros i; [done|].
  cbn [find_loop]. destruct (load_walk i) as (nd & Hload & Hnext).
  pose proof (walk_value i nd Hload) as Hval.
  destruct (walk st i) as [l|] eqn:Hw; [|by destruct (walk_is_Some i)].
  unfold attr_value, attr_next.
  rewrite (run_bind _ _ _ _ _ (run_bind _ _ _ _ _ Hload)). cbn [ret].
  rewrite decide_False by (by intros <-).
  rewrite (run_bind _ _ _ _ _ (run_bind _ _ _ _ _ Hload)). cbn [ret].
  rewrite Hnext. apply IH.
Qed.


End Cycle.

(** X18. When the chain from [head] runs into a cycle, [has_cycle]
    returns [True] and changes nothing. *)
Theorem has_cycle_detects_cycle st ns (mu : nat) (c : loc) :
  cycle_at st ns mu c -> has_cycle st = (Return true, st).
Proof.
  intros Hcycle. unfold has_cycle. mrun.
  destruct (meet_exists st ns mu c Hcycle) as (i & Hi & Hmeet).
  pose proof (cycle_fuel st ns mu c Hcycle) as Hfuel.
  apply (has_cycle_loop_meets st ns mu c Hcycle _ 0%nat i); [lia | done].
Qed.

(** X19. When the chain from [head] runs into a cycle, [cycle_start]
    returns the node where the cycle begins, the first node that the walk
    from [head] visits twice, and changes nothing. *)
Theorem cycle_start_finds_entry st ns (mu : nat) (c : loc) :
  cycle_at st ns mu c ->
  cycle_start st = (Return (Some c), st) /\ walk st mu = Some c /\
  (forall j : nat, (j < mu)%nat ->
     forall k : nat, j <> k -> walk st j <> walk st k).
Proof.
  intros Hcycle.
  destruct (meet_exists st ns mu c Hcycle) as (i & Hi & Hmeet).
  pose proof (cycle_fuel st ns mu c Hcycle) as Hfuel.
  pose proof (cycle_mu_lt st ns mu c Hcycle) as Hlt.
  assert (walk st mu = Some c) as Hentry.
  { destruct (walk_lt st ns mu c Hcycle mu Hlt) as (-> & _).
    by destruct Hcycle as (_ & _ & ?). }
  split; [|split; [done|]].
  - unfold cycle_start. mrun.
    destruct (cycle_meet_loop_meets st ns mu c Hcycle (S (size (heap st)))
                0%nat i ltac:(lia) Hmeet) as (m & Hm & Hmm & Hrun).
    change (head st) with (walk st 0) at 1 2.
    change (walk st 0) with (walk st (2 * 0)) at 2.
    rewrite Hrun.
    pose proof (meet_on_cycle st ns mu c Hcycle m Hm Hmm) as Hge.
    pose proof (cycle_entry_loop_finds st ns mu c Hcycle
                  (S (size (heap st))) m 0%nat Hge Hmm ltac:(lia) ltac:(lia))
      as Hloop.
    rewrite Nat.add_0_r in Hloop. change (walk st 0) with (head st) in Hloop.
    by rewrite Hloop, Hentry.
  - intros j Hj k Hne Heq.
    destruct (decide (k < mu)%nat) as [Hk|Hk].
    + pose proof (walk_inj st ns mu c Hcycle j k ltac:(lia) ltac:(lia) Heq).
      done.
    + destruct (walk_on_cycle st ns mu c Hcycle k ltac:(lia))
        as (k' & Hk' & Heq').
      rewrite Heq' in Heq.
      pose proof (walk_inj st ns mu c Hcycle j k' ltac:(lia) ltac:(lia) Heq).
      lia.
Qed.

Lemma index_of_loop_found st p ns q k v (z : Z) (j : nat) n :
  lseg (heap st) p ns q -> first_with v ns = Some (j, n) -> (j < k)%nat ->
  index_of_loop k v p z st = (Return (z + Z.of_nat j), st).
Proof.
  revert p k z j. induction ns as [|[l x] ns IH]; intros p [|k] z j Hs Hf Hk;
    try lia; try done.
  rewrite first_with_cons in Hf. simpl in Hs.
  destruct Hs as (-> & nx & Hl & Hs). cbn [index_of_loop]. mrun.
  destruct (decide (x = v)) as [Hx|Hx].
  - injection Hf as <- _. do 2 f_equal. lia.
  - destruct (first_with v ns) as [[j' n']|] eqn:E; [|done].
    simpl in Hf. injection Hf as Hj Hn. subst j n'. mrun.
    rewrite (IH nx k (z + 1) j' Hs eq_refl) by lia. do 2 f_equal. lia.
Qed.

Lemma find_loop_found st p ns q k v (j : nat) l0 x0 :
  lseg (heap st) p ns q -> first_with v ns = Some (j, (l0, x0)) ->
  (j < k)%nat ->
  find_loop k v p st = (Return (Some l0), st).
Proof.
  revert p k j. induction ns as [|[l x] ns IH]; intros p [|k] j Hs Hf Hk;
    try lia; try done.
  rewrite first_with_cons in Hf. simpl in Hs.
  destruct Hs as (-> & nx & Hl & Hs). cbn [find_loop]. mrun.
  destruct (decide (x = v)) as [Hx|Hx].
  - by injection Hf as _ <- _.
  - destruct (first_with v ns) as [[j' [l' x']]|] eqn:E; [|done].
    simpl in Hf. injection Hf as Hj Hl' Hx'. subst j l' x'. mrun.
    by rewrite (IH nx k j' Hs eq_refl) by lia.
Qed.

(** X20. On a chain that runs into a cycle the traversal behind
    [__iter__] and [to_list] never finishes: no number of iterations makes
    the loop return. *)
Theorem to_list_never_returns_on_cycle st ns (mu : nat) (c : loc) :
  cycle_at st ns mu c ->
  (forall k, iter_loop k (head st) st = (Diverge, st)) /\
  to_list st = (Diverge, st).
Proof.
  intros Hcycle.
  assert (forall k, iter_loop k (head st) st = (Diverge, st)) as Hloop
    by (intros k; apply (iter_loop_never_returns st ns mu c Hcycle k 0)).
  split; [done|]. unfold to_list. mrun. apply Hloop.
Qed.

(** X21. On a chain that runs into a cycle the searches still answer for
    a value that occurs: [index_of] returns its first position, [in]
    answers [True] and [find] returns its first node; for a value that
    does not occur their loop never returns. *)
Theorem search_on_cycle st ns (mu : nat) (c : loc) (v : V) :
  cycle_at st ns mu c ->
  (forall (j : nat) l,
     ns !! j = Some (l, v) ->
     (forall j', (j' < j)%nat -> ns.*2 !! j' <> Some v) ->
     index_of v st = (Return (Z.of_nat j), st) /\
     __contains__ v st = (Return true, st) /\
     find v st = (Return (Some l), st)) /\
  (v ∉ ns.*2 ->
   (forall k z, index_of_loop k v (head st) z st = (Diverge, st)) /\
   (forall k, find_loop k v (head st) st = (Diverge, st)) /\
   index_of v st = (Diverge, st) /\
   __contains__ v st = (Diverge, st) /\
   find v st = (Diverge, st)).
Proof.
  intros Hcycle. pose proof (cycle_fuel st ns mu c Hcycle) as Hfuel.
  split.
  - intros j l Hk Hmin. pose proof (lookup_lt_Some _ _ _ Hk) as Hlt.
    assert (first_with v ns = Some (j, (l, v))) as Hfw.
    { unfold first_with. apply list_find_Some. split; [done|].
      split; [done|]. intros j' [l' x'] Hj' Hlt' Hx'. simpl in Hx'. subst x'.
      apply (Hmin j' Hlt'). by rewrite list_lookup_fmap, Hj'. }
    destruct Hcycle as (Hs & _ & _).
    assert (index_of v st = (Return (Z.of_nat j), st)) as Hidx.
    { unfold index_of. mrun.
      rewrite (index_of_loop_found st _ ns _ _ v 0 j _ Hs Hfw) by lia.
      done. }
    split; [done|]. split.
    + unfold __contains__. rewrite (run_bind _ _ _ _ _ Hidx). unfold ret.
      by rewrite bool_decide_eq_true_2 by lia.
    + unfold find. mrun.
      by rewrite (find_loop_found st _ ns _ _ v j l v Hs Hfw) by lia.
  - intros Hnin.
    assert (forall k z, index_of_loop k v (head st) z st = (Diverge, st))
      as Hidx by (intros k z;
        apply (index_of_loop_never_returns st ns mu c Hcycle k v 0 z Hnin)).
    assert (forall k, find_loop k v (head st) st = (Diverge, st)) as Hfind
      by (intros k;
        apply (find_loop_never_returns st ns mu c Hcycle k v 0 Hnin)).
    split; [done|]. split; [done|].
    assert (index_of v st = (Diverge, st)) as Hi
      by (unfold index_of; mrun; apply Hidx).
    split; [done|]. split.
    + unfold __contains__, bind. by rewrite Hi.
    + unfold find. mrun. apply Hfind.
Qed.

End More.

(** * The further properties on concrete lists *)

Lemma len_is_empty_correct_witness :
  invariant sample /\ to_list sample = (Return [10; 20; 10], sample) /\
  __len__ sample = (Return 3, sample) /\
  is_empty sample = (Return false, sample).
Proof.
  assert (invariant sample) as Hinv by invariant_by_evaluation.
  assert (to_list sample = (Return [10; 20; 10], sample)) as Hlist
    by (vm_compute; reflexivity).
  destruct (len_is_empty_correct sample [10; 20; 10] Hinv Hlist)
    as (Hlen & Hemp).
  split; [exact Hinv|]. split; [exact Hlist|].
  split; [exact Hlen | exact Hemp].
Defined.

Lemma prepend_correct_witness :
  invariant sample /\ to_list sample = (Return [10; 20; 10], sample) /\
  exists st',
    prepend 5 sample = (Return tt, st') /\
    to_list st' = (Return [5; 10; 20; 10], st') /\
    get 0 st' = (Return 5, st').
Proof.
  assert (invariant sample) as Hinv by invariant_by_evaluation.
  assert (to_list sample = (Return [10; 20; 10], sample)) as Hlist
    by (vm_compute; reflexivity).
  destruct (prepend_correct sample [10; 20; 10] 5 Hinv Hlist)
    as (st' & Hrun & Hlist' & _ & _ & Hget & _).
  split; [exact Hinv|]. split; [exact Hlist|]. exists st'.
  split; [exact Hrun|]. split; [exact Hlist' | exact Hget].
Defined.

Lemma append_correct_witness :
  invariant sample /\ to_list sample = (Return [10; 20; 10], sample) /\
  exists st' st'',
    append 5 sample = (Return tt, st') /\
    to_list st' = (Return [10; 20; 10; 5], st') /\
    pop st' = (Return 5, st'') /\
    to_list st'' = (Return [10; 20; 10], st'').
Proof.
  assert (invariant sample) as Hinv by invariant_by_evaluation.
  assert (to_list sample = (Return [10; 20; 10], sample)) as Hlist
    by (vm_compute; reflexivity).
  destruct (append_correct sample [10; 20; 10] 5 Hinv Hlist)
    as (st' & Hrun & Hlist' & _ & _ & _ & _ & st'' & Hpop & Hlist'').
  split; [exact Hinv|]. split; [exact Hlist|]. exists st', st''.
  split; [exact Hrun|]. split; [exact Hlist'|].
  split; [exact Hpop | exact Hlist''].
Defined.

Lemma extend_correct_witness :
  invariant sample /\ to_list sample = (Return [10; 20; 10], sample) /\
  exists st',
    extend [2; 2] sample = (Return tt, st') /\
    to_list st' = (Return [10; 20; 10; 2; 2], st').
Proof.
  assert (invariant sample) as Hinv by invariant_by_evaluation.
  assert (to_list sample = (Return [10; 20; 10], sample)) as Hlist
    by (vm_compute; reflexivity).
  destruct (extend_correct sample [10; 20; 10] [2; 2] Hinv Hlist)
    as ((st' & Hrun & Hlist' & _) & _).
  split; [exact Hinv|]. split; [exact Hlist|]. exists st'.
  split; [exact Hrun | exact Hlist'].
Defined.

Lemma set_correct_witness :
  invariant sample /\ to_list sample = (Return [10; 20; 10], sample) /\
  0 <= 1 < _size sample /\
  exists st',
    set 1 777 sample = (Return tt, st') /\
    to_list st' = (Return [10; 777; 10], st') /\
    get 1 st' = (Return 777, st').
Proof.
  assert (invariant sample) as Hinv by invariant_by_evaluation.
  assert (to_list sample = (Return [10; 20; 10], sample)) as Hlist
    by (vm_compute; reflexivity).
  assert (0 <= 1 < _size sample) as Hi
    by (split; vm_compute; [discriminate | reflexivity]).
  destruct (set_correct sample [10; 20; 10] 1 777 Hinv Hlist Hi)
    as (st' & Hrun & Hlist' & Hget & _).
  split; [exact Hinv|]. split; [exact Hlist|]. split; [exact Hi|].
  exists st'. split; [exact Hrun|]. split; [exact Hlist' | exact Hget].
Defined.

Lemma remove_correct_witness :
  invariant sample /\ to_list sample = (Return [10; 20; 10], sample) /\
  (10 ∈ [10; 20; 10]) /\ (99 ∉ [10; 20; 10]) /\
  (exists st',
     remove 10 sample = (Return true, st') /\
     to_list st' = (Return [20; 10], st')) /\
  remove 99 sample = (Return false, sample).
Proof.
  assert (invariant sample) as Hinv by invariant_by_evaluation.
  assert (to_list sample = (Return [10; 20; 10], sample)) as Hlist
    by (vm_compute; reflexivity).
  assert (10 ∈ [10; 20; 10]) as Hin by constructor.
  assert (99 ∉ [10; 20; 10]) as Hnin
    by (refine (bool_decide_unpack _ _); vm_compute; exact I).
  destruct (remove_correct sample [10; 20; 10] 10 Hinv Hlist) as (Hfound & _).
  destruct (remove_correct sample [10; 20; 10] 99 Hinv Hlist) as (_ & Hnone).
  destruct (Hfound Hin) as (i & st' & Hi & Hmin & Hrun & Hlist' & _).
  assert (i = 0%nat) as ->.
  { destruct i as [|i]; [reflexivity|]. exfalso.
    apply (Hmin 0%nat); [lia | reflexivity]. }
  split; [exact Hinv|]. split; [exact Hlist|]. split; [exact Hin|].
  split; [exact Hnin|]. split; [|exact (Hnone Hnin)].
  exists st'. split; [exact Hrun | exact Hlist'].
Defined.

Lemma get_correct_witness :
  invariant sample /\ to_list sample = (Return [10; 20; 10], sample) /\
  0 <= 1 < _size sample /\ get 1 sample = (Return 20, sample).
Proof.
  assert (invariant sample) as Hinv by invariant_by_evaluation.
  assert (to_list sample = (Return [10; 20; 10], sample)) as Hlist
    by (vm_compute; reflexivity).
  assert (0 <= 1 < _size sample) as Hi
    by (split; vm_compute; [discriminate | reflexivity]).
  destruct (get_correct sample [10; 20; 10] 1 Hinv Hlist Hi) as (v & Hv & Hget).
  vm_compute in Hv. injection Hv as <-.
  split; [exact Hinv|]. split; [exact Hlist|]. split; [exact Hi | exact Hget].
Defined.

Lemma node_at_correct_witness :
  invariant sample /\ 0 <= 2 < _size sample /\
  _node_at 2 sample = (Return (tail sample), sample).
Proof.
  assert (invariant sample) as Hinv by invariant_by_evaluation.
  assert (0 <= 2 < _size sample) as Hi
    by (split; vm_compute; [discriminate | reflexivity]).
  assert (2 = _size sample - 1) as Hlast by (vm_compute; reflexivity).
  destruct (node_at_correct sample 2 Hinv Hi) as (l & Hrun & _ & _ & Ht).
  rewrite (Ht Hlast).
  split; [exact Hinv|]. split; [exact Hi | exact Hrun].
Defined.

Lemma remove_duplicates_idempotent_witness :
  invariant sample /\ to_list sample = (Return [10; 20; 10], sample) /\
  exists st',
    remove_duplicates sample = (Return tt, st') /\
    remove_duplicates st' = (Return tt, st').
Proof.
  assert (invariant sample) as Hinv by invariant_by_evaluation.
  assert (to_list sample = (Return [10; 20; 10], sample)) as Hlist
    by (vm_compute; reflexivity).
  destruct (remove_duplicates_idempotent sample [10; 20; 10] Hinv Hlist)
    as (_ & st' & Hrun & Hagain).
  split; [exact Hinv|]. split; [exact Hlist|]. exists st'.
  split; [exact Hrun | exact Hagain].
Defined.

Lemma index_of_get_agree_witness :
  invariant sample /\ to_list sample = (Return [10; 20; 10], sample) /\
  exists r,
    index_of 20 sample = (Return r, sample) /\
    get r sample = (Return 20, sample).
Proof.
  assert (invariant sample) as Hinv by invariant_by_evaluation.
  assert (to_list sample = (Return [10; 20; 10], sample)) as Hlist
    by (vm_compute; reflexivity).
  destruct (index_of_get_agree sample [10; 20; 10] 20 1 Hinv Hlist)
    as (r & Hidx & _ & Hget & Hle).
  assert (get 1 sample = (Return 20, sample)) as Hg1
    by (vm_compute; reflexivity).
  pose proof (Hle Hg1) as Hr.
  split; [exact Hinv|]. split; [exact Hlist|]. exists r.
  split; [exact Hidx|]. apply Hget. lia.
Defined.

Lemma nth_from_end_get_agree_witness :
  invariant sample /\ 1 <= 2 <= _size sample /\
  exists v,
    nth_from_end 2 sample = (Return v, sample) /\
    get (_size sample - 2) sample = (Return v, sample).
Proof.
  assert (invariant sample) as Hinv by invariant_by_evaluation.
  assert (1 <= 2 <= _size sample) as Hn by (split; vm_compute; discriminate).
  destruct (nth_from_end_get_agree sample 2 Hinv Hn) as (v & Hnth & Hget).
  split; [exact Hinv|]. split; [exact Hn|]. exists v.
  split; [exact Hnth | exact Hget].
Defined.

Lemma reverse_get_mirror_witness :
  invariant four /\ 0 <= 0 < _size four /\
  exists v st',
    reverse four = (Return tt, st') /\
    get (_size four - 1 - 0) four = (Return v, four) /\
    get 0 st' = (Return v, st').
Proof.
  assert (invariant four) as Hinv by invariant_by_evaluation.
  assert (0 <= 0 < _size four) as Hi
    by (split; vm_compute; [discriminate | reflexivity]).
  destruct (reverse_get_mirror four 0 Hinv Hi) as (v & st' & Hrun & Hg & Hg').
  split; [exact Hinv|]. split; [exact Hi|]. exists v, st'.
  split; [exact Hrun|]. split; [exact Hg | exact Hg'].
Defined.

Lemma insert_remove_at_round_trip_witness :
  invariant sample /\ to_list sample = (Return [10; 20; 10], sample) /\
  0 <= 1 <= _size sample /\
  exists st' st'',
    insert 1 99 sample = (Return tt, st') /\
    remove_at 1 st' = (Return 99, st'') /\
    to_list st'' = (Return [10; 20; 10], st'').
Proof.
  assert (invariant sample) as Hinv by invariant_by_evaluation.
  assert (to_list sample = (Return [10; 20; 10], sample)) as Hlist
    by (vm_compute; reflexivity).
  assert (0 <= 1 <= _size sample) as Hi by (split; vm_compute; discriminate).
  destruct (insert_remove_at_round_trip sample [10; 20; 10] 1 99
              Hinv Hlist Hi)
    as (st' & st'' & Hins & Hrm & Hlist'' & _).
  split; [exact Hinv|]. split; [exact Hlist|]. split; [exact Hi|].
  exists st', st''. split; [exact Hins|]. split; [exact Hrm | exact Hlist''].
Defined.

Lemma cycle_start_acyclic_witness :
  invariant sample /\ cycle_start sample = (Return None, sample).
Proof.
  assert (invariant sample) as Hinv by invariant_by_evaluation.
  split; [exact Hinv | exact (cycle_start_acyclic sample Hinv)].
Defined.

Lemma has_cycle_detects_cycle_witness :
  cycle_at looped
    [(1%positive, 1); (2%positive, 2); (3%positive, 3); (4%positive, 4)]
    1 2%positive /\
  has_cycle looped = (Return true, looped).
Proof.
  assert (cycle_at looped
            [(1%positive, 1); (2%positive, 2); (3%positive, 3);
             (4%positive, 4)] 1 2%positive) as Hcycle
    by cycle_at_by_evaluation.
  split; [exact Hcycle | exact (has_cycle_detects_cycle _ _ _ _ Hcycle)].
Defined.

Lemma cycle_start_finds_entry_witness :
  cycle_at looped
    [(1%positive, 1); (2%positive, 2); (3%positive, 3); (4%positive, 4)]
    1 2%positive /\
  cycle_start looped = (Return (Some 2%positive), looped).
Proof.
  assert (cycle_at looped
            [(1%positive, 1); (2%positive, 2); (3%positive, 3);
             (4%positive, 4)] 1 2%positive) as Hcycle
    by cycle_at_by_evaluation.
  destruct (cycle_start_finds_entry _ _ _ _ Hcycle) as (Hrun & _).
  split; [exact Hcycle | exact Hrun].
Defined.

Lemma to_list_never_returns_on_cycle_witness :
  cycle_at looped
    [(1%positive, 1); (2%positive, 2); (3%positive, 3); (4%positive, 4)]
    1 2%positive /\
  to_list looped = (Diverge, looped) /\
  iter_loop 1000 (head looped) looped = (Diverge, looped).
Proof.
  assert (cycle_at looped
            [(1%positive, 1); (2%positive, 2); (3%positive, 3);
             (4%positive, 4)] 1 2%positive) as Hcycle
    by cycle_at_by_evaluation.
  destruct (to_list_never_returns_on_cycle _ _ _ _ Hcycle) as (Hloop & Hrun).
  split; [exact Hcycle|]. split; [exact Hrun | exact (Hloop 1000%nat)].
Defined.

Lemma search_on_cycle_witness :
  cycle_at looped
    [(1%positive, 1); (2%positive, 2); (3%positive, 3); (4%positive, 4)]
    1 2%positive /\
  index_of 3 looped = (Return 2, looped) /\
  find 3 looped = (Return (Some 3%positive), looped) /\
  index_of 9 looped = (Diverge, looped).
Proof.
  assert (cycle_at looped
            [(1%positive, 1); (2%positive, 2); (3%positive, 3);
             (4%positive, 4)] 1 2%positive) as Hcycle
    by cycle_at_by_evaluation.
  destruct (search_on_cycle _ _ _ _ 3 Hcycle) as (Hfound & _).
  destruct (search_on_cycle _ _ _ _ 9 Hcycle) as (_ & Hmissing).
  destruct (Hfound 2%nat 3%positive eq_refl) as (Hidx & _ & Hfind).
  { intros j' Hj'. destruct j' as [|[|j']]; [discriminate | discriminate | lia]. }
  destruct Hmissing as (_ & _ & Hdiv & _).
  { refine (bool_decide_unpack _ _). vm_compute. exact I. }
  split; [exact Hcycle|]. split; [exact Hidx|]. split; [exact Hfind | exact Hdiv].
Defined.

End SLL.
